(** * img-coral: the growth simulation core of [img_coral.py]

    A shallow embedding of [CoralCell], [Board] and the module-level
    helper [get_random_hue], followed by the properties of the
    simulation step that the specification states.

    Conventions of the embedding.
    - Python integers are [Z]; Python's [%] is [Z.modulo] (both take
      the sign of the divisor) and raises on a zero divisor.
    - Python floats that the code only compares ([random() < p]) are
      rationals [Q]: a finite double is a dyadic rational and the
      comparison of two doubles is exact.  The three float expressions
      of [Board.__init__] are computed in [Q] without rounding; the
      [OverflowError] of their arithmetic is part of [Board_construct].
    - The process-wide generator of the [random] module is an entropy
      tape; each library call consumes one entry and reduces it into
      the range the call promises.
    - Methods mutate the board and the generator and may raise, so they
      live in a state monad with exceptions in which the state reached
      when an exception is raised is kept. *)

From Stdlib Require Import ZArith QArith Qabs Lia List String.
From stdpp Require Import base list.

Open Scope Z_scope.

(** ** Exceptions and the state monad *)

Inductive exn : Type :=
| ZeroDivisionError
| ValueError
| IndexError
| OverflowError.

Inductive result (A : Type) : Type :=
| Ok (a : A)
| Raise (e : exn).

Arguments Ok {A} a.
Arguments Raise {A} e.

Definition M (St A : Type) : Type := St -> result A * St.

Definition ret {St A : Type} (a : A) : M St A :=
  fun s => (Ok a, s).

Definition raise {St A : Type} (e : exn) : M St A :=
  fun s => (Raise e, s).

Definition bind {St A B : Type} (m : M St A) (k : A -> M St B) : M St B :=
  fun s =>
    match m s with
    | (Ok a, s') => k a s'
    | (Raise e, s') => (Raise e, s')
    end.

Declare Scope monad_scope.
Delimit Scope monad_scope with monad.

Notation "x <- m ;; k" := (bind m (fun x => k))
  (at level 100, m at next level, right associativity) : monad_scope.
Notation "m1 ;;; m2" := (bind m1 (fun _ => m2))
  (at level 100, right associativity) : monad_scope.

Open Scope monad_scope.

(** [[ f(x) for x in xs ]]: the calls happen left to right, each in the
    state the previous one left. *)
Fixpoint mapM {St A B : Type} (f : A -> M St B) (xs : list A) : M St (list B) :=
  match xs with
  | [] => ret []
  | x :: xs' =>
      y <- f x ;;
      ys <- mapM f xs' ;;
      ret (y :: ys)
  end.

(** [[ e for _ in range(n) ]] *)
Fixpoint replicateM {St A : Type} (n : nat) (m : M St A) : M St (list A) :=
  match n with
  | O => ret []
  | S n' =>
      y <- m ;;
      ys <- replicateM n' m ;;
      ret (y :: ys)
  end.

(** ** Python primitives *)

(** [a % b] *)
Definition py_mod {St : Type} (a b : Z) : M St Z :=
  if b =? 0 then raise ZeroDivisionError else ret (a mod b).

(** Position designated by the subscript [i] in a sequence of length
    [len]: negative subscripts count from the end. *)
Definition py_index (len : nat) (i : Z) : option nat :=
  if (0 <=? i) && (i <? Z.of_nat len) then Some (Z.to_nat i)
  else if (- Z.of_nat len <=? i) && (i <? 0) then Some (Z.to_nat (Z.of_nat len + i))
  else None.

(** [l[i]] *)
Definition getitem {St A : Type} (l : list A) (i : Z) : M St A :=
  match py_index (length l) i with
  | Some n =>
      match l !! n with
      | Some x => ret x
      | None => raise IndexError
      end
  | None => raise IndexError
  end.

(** [l[i] = v], as the list [l] becomes. *)
Definition setitem {St A : Type} (l : list A) (i : Z) (v : A) : M St (list A) :=
  match py_index (length l) i with
  | Some n => ret (<[n := v]> l)
  | None => raise IndexError
  end.

(** ** The [random] module *)

Record Rng : Type := mkRng { tape : nat -> N; pos : nat }.

(** The generator after one call. *)
Definition next (g : Rng) : Rng := mkRng (tape g) (S (pos g)).

Definition next_raw : M Rng N :=
  fun g => (Ok (tape g (pos g)), next g).

Definition two53 : positive := Eval cbv in (2 ^ 53)%positive.

(** [random()]: a multiple of 2^-53 in [0, 1). *)
Definition random : M Rng Q :=
  k <- next_raw ;;
  ret (Z.of_N k mod Z.pos two53 # two53).

(** [randrange(start, stop)] *)
Definition randrange (start stop : Z) : M Rng Z :=
  if 0 <? stop - start then
    k <- next_raw ;;
    ret (start + Z.of_N k mod (stop - start))
  else raise ValueError.

(** [randrange(stop)] *)
Definition randrange1 (stop : Z) : M Rng Z :=
  if 0 <? stop then
    k <- next_raw ;;
    ret (Z.of_N k mod stop)
  else raise ValueError.

(** [choice(seq)] *)
Definition choice {A : Type} (seq : list A) : M Rng A :=
  match seq with
  | [] => raise IndexError
  | _ :: _ =>
      k <- next_raw ;;
      getitem seq (Z.of_N k mod Z.of_nat (length seq))
  end.

(** [x < y] on floats *)
Definition Qltb (x y : Q) : bool :=
  Qnum x * Z.pos (Qden y) <? Qnum y * Z.pos (Qden x).

(** ** [get_random_hue] and [CoralCell] *)

Definition get_random_hue : M Rng Z :=
  h <- randrange (-60) 200 ;;
  py_mod h 360.

Record CoralCell : Type := mkCoralCell { hue : Z; brightness : Z }.

Definition get_child (self : CoralCell) (hue_diff : Z) (p_brighter : Q)
  : M Rng CoralCell :=
  d <- randrange (- hue_diff) (hue_diff + 1) ;;
  new_hue <- py_mod (hue self + d) 360 ;;
  new_brightness <-
    (if brightness self <? 100 then
       u <- random ;;
       if Qltb u p_brighter then ret (brightness self + 1)
       else ret (brightness self)
     else ret (brightness self)) ;;
  ret (mkCoralCell new_hue new_brightness).

(** ** [Board] *)

Record Board : Type := mkBoard {
  nb_rows : Z;
  nb_cols : Z;
  cells : list (list (option CoralCell));
  step_nb : Z;
  done : bool;
  drifters : list (Z * Z);
  hue_diff : Z;
  p_brightness : Q;
  p_down : Q;
  p_right : Q
}.

Definition with_cells (b : Board) (c : list (list (option CoralCell))) : Board :=
  mkBoard (nb_rows b) (nb_cols b) c (step_nb b) (done b) (drifters b)
          (hue_diff b) (p_brightness b) (p_down b) (p_right b).

Definition with_step_nb (b : Board) (n : Z) : Board :=
  mkBoard (nb_rows b) (nb_cols b) (cells b) n (done b) (drifters b)
          (hue_diff b) (p_brightness b) (p_down b) (p_right b).

Definition with_done (b : Board) (d : bool) : Board :=
  mkBoard (nb_rows b) (nb_cols b) (cells b) (step_nb b) d (drifters b)
          (hue_diff b) (p_brightness b) (p_down b) (p_right b).

Definition with_drifters (b : Board) (ds : list (Z * Z)) : Board :=
  mkBoard (nb_rows b) (nb_cols b) (cells b) (step_nb b) (done b) ds
          (hue_diff b) (p_brightness b) (p_down b) (p_right b).

(** The state of a mutating method: the board [self] and the generator. *)
Definition World : Type := (Board * Rng)%type.

Definition liftR {A : Type} (m : M Rng A) : M World A :=
  fun w => let (r, g) := m (snd w) in (r, (fst w, g)).

Definition get_self : M World Board :=
  fun w => (Ok (fst w), w).

Definition update_self (f : Board -> Board) : M World unit :=
  fun w => (Ok tt, (f (fst w), snd w)).

(** [b.make_drifter()]; [nb_cols] is the one attribute it reads. *)
Definition make_drifter (nb_cols : Z) : M Rng (Z * Z) :=
  c <- randrange1 nb_cols ;;
  ret (0, c).

(** The double written [0.333]. *)
Definition p_up : Q := 5998794703657501 # 18014398509481984.

(** [Board(nb_rows, nb_cols, hue_diff, p_brightness, down_bias, right_bias)]
    with float parameters.  The errors of the arithmetic on [int]
    parameters and on magnitudes beyond the range of a double are
    those of [Board_construct] below. *)
Definition Board_init (nb_rows nb_cols hue_diff : Z)
    (p_brightness down_bias right_bias : Q) : M Rng Board :=
  let cells := replicate (Z.to_nat nb_rows) (replicate (Z.to_nat nb_cols) None) in
  let nb_drifters := nb_cols in
  ds <- replicateM (Z.to_nat nb_drifters) (make_drifter nb_cols) ;;
  pb <- (if nb_rows =? 0 then raise ZeroDivisionError
         else ret (p_brightness * 100 / inject_Z nb_rows)%Q) ;;
  ret (mkBoard nb_rows nb_cols cells 0 false ds hue_diff pb
         (0.25 + 0.75 * down_bias)%Q (0.5 + right_bias / 2)%Q).

(** [if cell: neighbours.append(cell)]; every [CoralCell] is truthy. *)
Definition append_cell (neighbours : list CoralCell) (cell : option CoralCell)
  : list CoralCell :=
  match cell with
  | Some c => neighbours ++ [c]
  | None => neighbours
  end.

(** The list [neighbours] as lines 62 to 79 of [get_coral_neighbour]
    build it: above, below, left, right. *)
Definition collect_neighbours {St : Type} (self : Board) (row col : Z)
  : M St (list CoralCell) :=
  let neighbours := [] in
  neighbours <-
    (if 0 <? row then
       r <- getitem (cells self) (row - 1) ;;
       cell <- getitem r col ;;
       ret (append_cell neighbours cell)
     else ret neighbours) ;;
  neighbours <-
    (if row <? nb_rows self - 1 then
       r <- getitem (cells self) (row + 1) ;;
       cell <- getitem r col ;;
       ret (append_cell neighbours cell)
     else ret neighbours) ;;
  r <- getitem (cells self) row ;;
  c <- py_mod (col - 1) (nb_cols self) ;;
  cell <- getitem r c ;;
  let neighbours := append_cell neighbours cell in
  r <- getitem (cells self) row ;;
  c <- py_mod (col + 1) (nb_cols self) ;;
  cell <- getitem r c ;;
  ret (append_cell neighbours cell).

Definition get_coral_neighbour (self : Board) (row col : Z)
  : M Rng (option CoralCell) :=
  neighbours <- collect_neighbours self row col ;;
  match neighbours with
  | [] => ret None
  | _ :: _ => n <- choice neighbours ;; ret (Some n)
  end.

Definition drift (self : Board) (row col : Z) : M Rng (Z * Z) :=
  down <-
    (if row <? nb_rows self - 1 then
       u <- random ;; ret (Qltb u (p_down self))
     else ret false) ;;
  if down : bool then ret (row + 1, col)
  else
    up <-
      (if 0 <? row then
         u <- random ;; ret (Qltb u p_up)
       else ret false) ;;
    if up : bool then ret (row - 1, col)
    else
      u <- random ;;
      if Qltb u (p_right self) then
        c <- py_mod (col + 1) (nb_cols self) ;; ret (row, c)
      else
        c <- py_mod (col - 1) (nb_cols self) ;; ret (row, c).

(** [self.cells[row][col] = v]; the right-hand side has been evaluated. *)
Definition write_cell (row col : Z) (v : CoralCell) : M World unit :=
  self <- get_self ;;
  match py_index (length (cells self)) row with
  | Some n =>
      match cells self !! n with
      | Some r =>
          r' <- setitem r col (Some v) ;;
          update_self (fun b => with_cells b (<[n := r']> (cells b)))
      | None => raise IndexError
      end
  | None => raise IndexError
  end.

Definition drifter_step (row col : Z) : M World (Z * Z) :=
  self <- get_self ;;
  neighbour <- liftR (get_coral_neighbour self row col) ;;
  match neighbour with
  | Some n =>
      child <- liftR (get_child n (hue_diff self) (p_brightness self)) ;;
      write_cell row col child ;;;
      (if row =? 0 then update_self (fun b => with_done b true) else ret tt) ;;;
      liftR (make_drifter (nb_cols self))
  | None =>
      if row =? nb_rows self - 1 then
        h <- liftR get_random_hue ;;
        write_cell row col (mkCoralCell h 0) ;;;
        liftR (make_drifter (nb_cols self))
      else liftR (drift self row col)
  end.

Definition step : M World unit :=
  update_self (fun b => with_step_nb b (step_nb b + 1)) ;;;
  self <- get_self ;;
  ds <- mapM (fun d => drifter_step (fst d) (snd d)) (drifters self) ;;
  update_self (fun b => with_drifters b ds).

(** ** Snapshots

    The imaging library is not part of the repository.  Its pixel store
    is a grid of colours that rejects a negative size and any access
    outside the image, and its colour parser rejects a component that
    is not written with digits only. *)

Inductive colour : Type :=
| Background
| Hsv (h v : Z)
| White.

Abbreviation image := (list (list colour)).

(** [Image.new('RGB', (w, h), '#000088')] *)
Definition Image_new {St : Type} (w h : Z) : M St image :=
  if (w <? 0) || (h <? 0) then raise ValueError
  else ret (replicate (Z.to_nat h) (replicate (Z.to_nat w) Background)).

(** [px[x, y] = v] *)
Definition px_set {St : Type} (im : image) (x y : Z) (v : colour) : M St image :=
  if (0 <=? y) && (y <? Z.of_nat (length im)) then
    match im !! Z.to_nat y with
    | Some r =>
        if (0 <=? x) && (x <? Z.of_nat (length r)) then
          ret (<[Z.to_nat y := <[Z.to_nat x := v]> r]> im)
        else raise IndexError
    | None => raise IndexError
    end
  else raise IndexError.

(** [ImageColor.getrgb('hsv(%d, 100%%, %d%%)' % (h, v))] *)
Definition getrgb_hsv {St : Type} (h v : Z) : M St colour :=
  if (0 <=? h) && (0 <=? v) then ret (Hsv h v) else raise ValueError.

(** [for x in xs: acc = f(acc, x)] *)
Fixpoint foldM {St A B : Type} (f : B -> A -> M St B) (xs : list A) (acc : B)
  : M St B :=
  match xs with
  | [] => ret acc
  | x :: xs' => acc' <- f acc x ;; foldM f xs' acc'
  end.

(** [range(n)] *)
Definition range (n : Z) : list Z := seqZ 0 n.

Definition print_to_image {St : Type} (self : Board) (show_drifters : bool)
  : M St image :=
  im <- Image_new (nb_cols self) (nb_rows self) ;;
  im <- foldM (fun im row =>
         foldM (fun im col =>
           r <- getitem (cells self) row ;;
           cell <- getitem r col ;;
           match cell with
           | Some c =>
               colour <- getrgb_hsv (hue c) (brightness c) ;;
               px_set im col row colour
           | None => ret im
           end) (range (nb_cols self)) im)
         (range (nb_rows self)) im ;;
  if show_drifters then
    foldM (fun im d => px_set im (snd d) (fst d) White) (drifters self) im
  else ret im.

(** [(row, col) in self.drifters] *)
Definition is_drifter (self : Board) (row col : Z) : bool :=
  existsb (fun d => (fst d =? row) && (snd d =? col)) (drifters self).

Definition print_cell {St : Type} (self : Board) (row col : Z) : M St string :=
  if is_drifter self row col then ret "."%string
  else
    r <- getitem (cells self) row ;;
    cell <- getitem r col ;;
    match cell with
    | Some _ => ret "#"%string
    | None => ret " "%string
    end.

Definition newline : string := String (Ascii.ascii_of_nat 10) EmptyString.

(** [str(b)] *)
Definition Board_str {St : Type} (self : Board) : M St string :=
  lines <- mapM (fun row =>
             cs <- mapM (fun col => print_cell self row col)
                        (range (nb_cols self)) ;;
             ret (String.concat "" cs))
           (range (nb_rows self)) ;;
  ret (String.concat newline lines).

(** An entropy tape given by its first entries, zero afterwards. *)
Definition tape_of (l : list N) : Rng := mkRng (fun n => nth n l 0%N) 0.

(** ** Boards met during a run *)

Abbreviation grid := (list (list (option CoralCell))).

(** The cell [c] is settled at row [n], column [m]. *)
Definition cell_at (g : grid) (n m : nat) (c : CoralCell) : Prop :=
  exists r, g !! n = Some r /\ r !! m = Some (Some c).

Definition cell_ok (c : CoralCell) : Prop :=
  0 <= hue c < 360 /\ 0 <= brightness c <= 100.

Definition grid_ok (g : grid) : Prop :=
  forall n m c, cell_at g n m c -> cell_ok c.

(** The grid has [nb_rows] rows of [nb_cols] slots. *)
Definition shape_ok (b : Board) : Prop :=
  Z.of_nat (length (cells b)) = nb_rows b /\
  Forall (fun r => Z.of_nat (length r) = nb_cols b) (cells b).

(** A position of a grid of [nr] rows and [nc] columns. *)
Definition on_board (nr nc : Z) (d : Z * Z) : Prop :=
  0 <= fst d < nr /\ 0 <= snd d < nc.

(** What the slot at ([row], [col]) holds, for a position of the grid. *)
Definition slot (g : grid) (row col : Z) : option CoralCell :=
  match g !! Z.to_nat row with
  | Some r =>
      match r !! Z.to_nat col with
      | Some cell => cell
      | None => None
      end
  | None => None
  end.

(** The grid with [v] settled at ([row], [col]). *)
Definition grid_set (g : grid) (row col : Z) (v : CoralCell) : grid :=
  alter (fun r => <[Z.to_nat col := Some v]> r) (Z.to_nat row) g.

(** The board after a drifter settled at ([row], [col]) as [child]. *)
Definition settle (b : Board) (row col : Z) (child : CoralCell) : Board :=
  with_done (with_cells b (grid_set (cells b) row col child))
            (done b || (row =? 0)).

(** The board after a drifter seeded a root of hue [h] at ([row], [col]). *)
Definition seed (b : Board) (row col : Z) (h : Z) : Board :=
  with_cells b (grid_set (cells b) row col (mkCoralCell h 0)).

(** The entries collected from the rows above and below. *)
Definition vertical (b : Board) (row col : Z) : list CoralCell :=
  option_list (if 0 <? row then slot (cells b) (row - 1) col else None)
  ++ option_list (if row <? nb_rows b - 1 then slot (cells b) (row + 1) col
                  else None).

(** The entries that a neighbour lookup at a position of the board
    collects, in order: above, below, left, right. *)
Definition collected (b : Board) (row col : Z) : list CoralCell :=
  option_list (if 0 <? row then slot (cells b) (row - 1) col else None)
  ++ option_list (if row <? nb_rows b - 1 then slot (cells b) (row + 1) col
                  else None)
  ++ option_list (slot (cells b) row ((col - 1) mod nb_cols b))
  ++ option_list (slot (cells b) row ((col + 1) mod nb_cols b)).

(** The attributes that no method assigns after construction. *)
Definition same_params (b b' : Board) : Prop :=
  nb_rows b' = nb_rows b /\ nb_cols b' = nb_cols b /\
  hue_diff b' = hue_diff b /\ p_brightness b' = p_brightness b /\
  p_down b' = p_down b /\ p_right b' = p_right b.

(** The invariant of a board of positive dimensions. *)
Record inv (b : Board) : Prop := mkInv {
  inv_rows : 0 < nb_rows b;
  inv_cols : 0 < nb_cols b;
  inv_shape : shape_ok b;
  inv_grid : grid_ok (cells b);
  inv_drifters : Forall (on_board (nb_rows b) (nb_cols b)) (drifters b)
}.

(** What holds of the board [b] while [step] processes the drifters of
    [b0]. *)
Definition within_step (b0 b : Board) : Prop :=
  same_params b0 b /\ drifters b = drifters b0 /\ step_nb b = step_nb b0 /\
  shape_ok b /\ grid_ok (cells b).

(** An image of [w] by [h] pixels. *)
Definition image_shape (w h : Z) (im : image) : Prop :=
  Z.of_nat (length im) = h /\
  Forall (fun r => Z.of_nat (length r) = w) im.

(** The comprehension of [step] over a list of drifters. *)
Definition drifter_steps (ds : list (Z * Z)) : M World (list (Z * Z)) :=
  mapM (fun d => drifter_step (fst d) (snd d)) ds.

(** [advances b0 b]: [b] is the board after some sequence of calls of
    [step] on [b0], the generator being in any state at each call and
    a call that raises leaving the board as it was when it raised. *)
Inductive advances (b0 : Board) : Board -> Prop :=
| advances_none : advances b0 b0
| advances_step b g r b' g' :
    advances b0 b -> step (b, g) = (r, (b', g')) -> advances b0 b'.

(** [visited b0 b]: [b] is met between two calls of [step] or part-way
    through one, after some leading drifters have been processed. *)
Inductive visited (b0 : Board) : Board -> Prop :=
| visited_between b : advances b0 b -> visited b0 b
| visited_within b g pre post r b' g' :
    advances b0 b ->
    drifters b = pre ++ post ->
    drifter_steps pre (with_step_nb b (step_nb b + 1), g) = (r, (b', g')) ->
    visited b0 b'.

(** [descends hd pb p c]: [c] is reached from [p] by a chain of
    [get_child] calls. *)
Inductive descends (hd : Z) (pb : Q) (p : CoralCell) : CoralCell -> Prop :=
| descends_self : descends hd pb p p
| descends_child c g c' g' :
    descends hd pb p c ->
    get_child c hd pb g = (Ok c', g') ->
    descends hd pb p c'.

(** ** The specification's wording of two operations *)



(** A drifter update whose neighbour lookup reads the grid of [start]
    instead of the current one. *)
Definition drifter_step_against (start : Board) (row col : Z)
  : M World (Z * Z) :=
  self <- get_self ;;
  neighbour <-
    liftR (get_coral_neighbour (with_cells self (cells start)) row col) ;;
  match neighbour with
  | Some n =>
      child <- liftR (get_child n (hue_diff self) (p_brightness self)) ;;
      write_cell row col child ;;;
      (if row =? 0 then update_self (fun b => with_done b true) else ret tt) ;;;
      liftR (make_drifter (nb_cols self))
  | None =>
      if row =? nb_rows self - 1 then
        h <- liftR get_random_hue ;;
        write_cell row col (mkCoralCell h 0) ;;;
        liftR (make_drifter (nb_cols self))
      else liftR (drift self row col)
  end.

(** The advance in which every drifter is updated against the grid as
    it was when the advance began. *)
Definition step_snapshot : M World unit :=
  update_self (fun b => with_step_nb b (step_nb b + 1)) ;;;
  self <- get_self ;;
  ds <- mapM (fun d => drifter_step_against self (fst d) (snd d))
             (drifters self) ;;
  update_self (fun b => with_drifters b ds).

(** ** Weakest preconditions *)

(** [wp m s Q E]: run from [s], [m] either returns a value and a state
    that satisfy [Q], or raises in a state that satisfies [E]. *)
Definition wp {St A : Type} (m : M St A) (s : St)
    (Q : A -> St -> Prop) (E : exn -> St -> Prop) : Prop :=
  match m s with
  | (Ok a, s') => Q a s'
  | (Raise e, s') => E e s'
  end.

(** No exception is acceptable. *)
Definition never {St : Type} : exn -> St -> Prop := fun _ _ => False.


(** ** [Board.run]

    The console and the display or file that receives a snapshot are
    outside the program; what [run] sends them is kept in a log.  The
    [while] loop is given a bound on its iterations: the result [true]
    means that the loop ended ([run] returns [self], the board of the
    final state), [false] that it was still running when the bound was
    reached. *)

Inductive event : Type :=
| Printed (n : Z)
| Shown (im : image)
| Saved (prefix : string) (n : Z) (im : image).

(** The state of a run: the board, the generator and the log. *)
Definition Session : Type := (World * list event)%type.

Definition liftW {A : Type} (m : M World A) : M Session A :=
  fun s => let (r, w) := m (fst s) in (r, (w, snd s)).

Definition the_board : M Session Board :=
  fun s => (Ok (fst (fst s)), s).

Definition emit (e : event) : M Session unit :=
  fun s => (Ok tt, (fst s, snd s ++ [e])).

(** [a // b] *)
Definition py_floordiv {St : Type} (a b : Z) : M St Z :=
  if b =? 0 then raise ZeroDivisionError else ret (a / b).

(** The loop of [run]: [Printed n] is [print('Step', n)], [Shown im] is
    [snapshot.show()] and [Saved prefix n im] is
    [snapshot.save('%s%d.png' % (prefix, n))]. *)
Fixpoint run_loop (print_step image_step : Z) (save_prefix : option string)
    (fuel : nat) : M Session bool :=
  self <- the_board ;;
  if done self then ret true
  else
    match fuel with
    | O => ret false
    | S fuel' =>
        liftW step ;;;
        self <- the_board ;;
        (if negb (print_step =? 0) then
           m <- py_mod (step_nb self) print_step ;;
           if m =? 0 then emit (Printed (step_nb self)) else ret tt
         else ret tt) ;;;
        (if negb (image_step =? 0) then
           m <- py_mod (step_nb self) image_step ;;
           if m =? 0 then
             snapshot <- print_to_image self true ;;
             match save_prefix with
             | None => emit (Shown snapshot)
             | Some prefix =>
                 n <- py_floordiv (step_nb self) image_step ;;
                 emit (Saved prefix n snapshot)
             end
           else ret tt
         else ret tt) ;;;
        run_loop print_step image_step save_prefix fuel'
    end.

Definition run (print_step image_step : Z) (save_prefix : option string)
    (fuel : nat) : M Session bool :=
  liftW (update_self (fun b => with_step_nb b 0)) ;;;
  run_loop print_step image_step save_prefix fuel.

(** ** Observations *)

(** The value that the next call of [random()] returns. *)
Definition draw (g : Rng) : Q :=
  Z.of_N (tape g (pos g)) mod Z.pos two53 # two53.

(** A hue that [get_random_hue] calls non-blue. *)
Definition non_blue (h : Z) : Prop :=
  0 <= h < 200 \/ 300 <= h < 360.

Definition occupied (g : grid) (row col : Z) : Prop :=
  is_Some (slot g row col).

(** From [b] to [b'] nothing was undone: [done] was not unset and no
    slot was emptied. *)
Definition grows (b b' : Board) : Prop :=
  (done b = true -> done b' = true) /\
  forall row col, occupied (cells b) row col -> occupied (cells b') row col.

(** When [done] is set, a cell is settled on the top row. *)
Definition top_reached (b : Board) : Prop :=
  done b = true ->
  exists col, 0 <= col < nb_cols b /\ occupied (cells b) 0 col.

(** The step numbers printed, in order. *)
Fixpoint printed (evs : list event) : list Z :=
  match evs with
  | [] => []
  | Printed n :: evs' => n :: printed evs'
  | _ :: evs' => printed evs'
  end.

(** The snapshots taken, in order: shown ([None]) or saved under a
    prefix and a number. *)
Fixpoint snapshots (evs : list event) : list (option (string * Z)) :=
  match evs with
  | [] => []
  | Printed _ :: evs' => snapshots evs'
  | Shown _ :: evs' => None :: snapshots evs'
  | Saved prefix n _ :: evs' => Some (prefix, n) :: snapshots evs'
  end.

(** The steps [k] of [first + 1 .. last] with [k % period == 0]. *)
Definition due_steps (period first last : Z) : list Z :=
  if period =? 0 then []
  else filter (fun k => k mod period = 0) (seqZ (first + 1) (last - first)).

(** The pixel of an image at ([row], [col]). *)
Definition pixel (im : image) (row col : Z) : option colour :=
  match im !! Z.to_nat row with
  | Some r => r !! Z.to_nat col
  | None => None
  end.

(** The colour a snapshot gives to a position of the board. *)
Definition pixel_of (b : Board) (show_drifters : bool) (row col : Z) : colour :=
  if show_drifters && is_drifter b row col then White
  else
    match slot (cells b) row col with
    | Some c => Hsv (hue c) (brightness c)
    | None => Background
    end.

(** The character a textual snapshot gives to a position of the board. *)
Definition char_of (b : Board) (row col : Z) : string :=
  if is_drifter b row col then "."%string
  else
    match slot (cells b) row col with
    | Some _ => "#"%string
    | None => " "%string
    end.

(** ** Construction on Python numbers

    [Board_init] above takes the three float parameters as rationals
    and builds lists of any length.  The definitions below follow
    [Board.__init__] on the numbers Python passes, an [int] or a finite
    [float] for each of [p_brightness], [down_bias] and [right_bias],
    with the errors of the arithmetic of its last three assignments
    and of [[None] * nb_cols]: a conversion of an [int] to [float] and
    a true division of two [int]s raise [OverflowError] from
    [2^1024 - 2^970] on, the first magnitude that does not round to a
    finite double, and a list repetition raises it for a count that is
    not index-sized, [maxsize] being [sys.maxsize].  Values are still
    exact rationals and memory is not bounded. *)

Inductive num : Type :=
| Int (n : Z)
| Float (x : Q).

Definition num_value (a : num) : Q :=
  match a with
  | Int n => inject_Z n
  | Float x => x
  end.

Definition double_limit : Z := 2 ^ 1024 - 2 ^ 970.

(** The magnitude [q] rounds to a finite double. *)
Definition in_double_range (q : Q) : bool :=
  Qltb (Qabs q) (inject_Z double_limit).

(** [float(n)] *)
Definition to_float {St : Type} (n : Z) : M St Q :=
  if in_double_range (inject_Z n) then ret (inject_Z n)
  else raise OverflowError.

(** The operand of a float operation. *)
Definition as_float {St : Type} (a : num) : M St Q :=
  match a with
  | Int n => to_float n
  | Float x => ret x
  end.

(** [a * b] *)
Definition py_mul {St : Type} (a b : num) : M St num :=
  match a, b with
  | Int m, Int n => ret (Int (m * n))
  | _, _ => x <- as_float a ;; y <- as_float b ;; ret (Float (x * y))
  end.

(** [a + b] *)
Definition py_add {St : Type} (a b : num) : M St num :=
  match a, b with
  | Int m, Int n => ret (Int (m + n))
  | _, _ => x <- as_float a ;; y <- as_float b ;; ret (Float (x + y))
  end.

(** [a / b] *)
Definition py_truediv {St : Type} (a b : num) : M St num :=
  match a, b with
  | Int m, Int n =>
      if n =? 0 then raise ZeroDivisionError
      else if in_double_range (inject_Z m / inject_Z n) then
        ret (Float (inject_Z m / inject_Z n))
      else raise OverflowError
  | _, _ =>
      x <- as_float a ;;
      y <- as_float b ;;
      if Qnum y =? 0 then raise ZeroDivisionError else ret (Float (x / y))
  end.

(** The count [n] of a repetition is index-sized. *)
Definition fits_index (maxsize n : Z) : bool :=
  (- maxsize - 1 <=? n) && (n <=? maxsize).

(** [[x] * n] *)
Definition list_repeat {St A : Type} (maxsize : Z) (x : A) (n : Z)
  : M St (list A) :=
  if fits_index maxsize n then ret (replicate (Z.to_nat n) x)
  else raise OverflowError.

(** [Board(nb_rows, nb_cols, hue_diff, p_brightness, down_bias,
    right_bias)] on Python numbers. *)
Definition Board_construct (maxsize : Z) (nb_rows nb_cols hue_diff : Z)
    (p_brightness down_bias right_bias : num) : M Rng Board :=
  cells <- replicateM (Z.to_nat nb_rows) (list_repeat maxsize None nb_cols) ;;
  let nb_drifters := nb_cols in
  ds <- replicateM (Z.to_nat nb_drifters) (make_drifter nb_cols) ;;
  pb <- (a <- py_mul p_brightness (Int 100) ;; py_truediv a (Int nb_rows)) ;;
  pd <- (a <- py_mul (Float 0.75) down_bias ;; py_add (Float 0.25) a) ;;
  pr <- (a <- py_truediv right_bias (Int 2) ;; py_add (Float 0.5) a) ;;
  ret (mkBoard nb_rows nb_cols cells 0 false ds hue_diff
         (num_value pb) (num_value pd) (num_value pr)).

(** A magnitude of the arithmetic of construction is beyond the range
    of a double, for [nb_rows <> 0]: [nb_rows] itself under a float
    [p_brightness] or the quotient under an [int] one, an [int]
    [down_bias], or half an [int] [right_bias]. *)
Definition float_overflow (nb_rows : Z) (p_brightness down_bias right_bias : num)
  : bool :=
  negb (match p_brightness with
        | Int n => in_double_range (inject_Z (n * 100) / inject_Z nb_rows)
        | Float _ => in_double_range (inject_Z nb_rows)
        end)
  || negb (match down_bias with
           | Int n => in_double_range (inject_Z n)
           | Float _ => true
           end)
  || negb (match right_bias with
           | Int n => in_double_range (inject_Z n / inject_Z 2)
           | Float _ => true
           end).
(** * Reasoning rules *)

Section Rules.
Context {St : Type}.
Implicit Types (s : St) (E : exn -> St -> Prop).

Lemma wp_ret {A} (a : A) s (Q : A -> St -> Prop) E :
  Q a s -> wp (ret a) s Q E.
Proof. intros H; exact H. Qed.

Lemma wp_raise {A} e s (Q : A -> St -> Prop) E :
  E e s -> wp (raise e) s Q E.
Proof. intros H; exact H. Qed.

Lemma wp_bind {A B} (m : M St A) (k : A -> M St B) s
    (Q : B -> St -> Prop) E :
  wp m s (fun a s' => wp (k a) s' Q E) E -> wp (bind m k) s Q E.
Proof.
  unfold wp, bind. destruct (m s) as [[a|e] s']; auto.
Qed.

Lemma bind_ok {A B} (m : M St A) (k : A -> M St B) s a s' :
  m s = (Ok a, s') -> bind m k s = k a s'.
Proof. unfold bind. intros ->. reflexivity. Qed.

Lemma py_mod_eq a b s :
  b <> 0 -> py_mod a b s = (Ok (a mod b), s).
Proof.
  intros Hb. unfold py_mod. destruct (Z.eqb_spec b 0); [lia|reflexivity].
Qed.

Lemma wp_mono {A} (m : M St A) s (Q Q' : A -> St -> Prop) E E' :
  wp m s Q E ->
  (forall a s', Q a s' -> Q' a s') ->
  (forall e s', E e s' -> E' e s') ->
  wp m s Q' E'.
Proof.
  unfold wp. destruct (m s) as [[a|e] s']; auto.
Qed.

Lemma wp_never {A} (m : M St A) s (Q : A -> St -> Prop) :
  wp m s Q never <-> exists a s', m s = (Ok a, s') /\ Q a s'.
Proof.
  unfold wp, never. destruct (m s) as [[a|e] s']; split.
  - intros H; eauto.
  - intros (a' & s'' & Heq & H). congruence.
  - intros [].
  - intros (a' & s'' & Heq & _). discriminate.
Qed.

Lemma wp_eq {A} (m : M St A) s r s' (Q : A -> St -> Prop) E :
  wp m s Q E -> m s = (r, s') ->
  match r with Ok a => Q a s' | Raise e => E e s' end.
Proof. unfold wp. intros H Heq. rewrite Heq in H. exact H. Qed.

Lemma wp_py_mod a b s (Q : Z -> St -> Prop) E :
  (b <> 0 -> 0 < b -> 0 <= a mod b < b -> Q (a mod b) s) ->
  (b <> 0 -> b < 0 -> Q (a mod b) s) ->
  (b = 0 -> E ZeroDivisionError s) ->
  wp (py_mod a b) s Q E.
Proof.
  intros Hpos Hneg Hz. unfold py_mod.
  destruct (Z.eqb_spec b 0) as [->|Hb].
  - apply wp_raise; auto.
  - apply wp_ret. destruct (Z.lt_total b 0) as [Hlt|[Heq|Hgt]]; [auto|lia|].
    apply Hpos; [lia|lia|]. apply Z.mod_pos_bound; lia.
Qed.

Lemma py_index_inv len i n :
  py_index len i = Some n -> (n < len)%nat.
Proof.
  unfold py_index.
  destruct (Z.leb_spec 0 i), (Z.ltb_spec i (Z.of_nat len)); simpl;
    try (intros [= <-]; lia);
    destruct (Z.leb_spec (- Z.of_nat len) i), (Z.ltb_spec i 0); simpl;
    try discriminate; intros [= <-]; lia.
Qed.

Lemma py_index_in_range len i :
  0 <= i < Z.of_nat len -> py_index len i = Some (Z.to_nat i).
Proof.
  intros Hi. unfold py_index.
  destruct (Z.leb_spec 0 i), (Z.ltb_spec i (Z.of_nat len)); simpl; auto; lia.
Qed.

Lemma wp_mapM {A B} (f : A -> M St B) (I : St -> Prop)
    (P : A -> Prop) (R : B -> Prop) E xs :
  Forall P xs ->
  (forall x s, P x -> I s -> wp (f x) s (fun y s' => R y /\ I s') E) ->
  forall s, I s ->
  wp (mapM f xs) s
     (fun ys s' => length ys = length xs /\ Forall R ys /\ I s') E.
Proof.
  intros HP Hf. induction HP as [|x xs Hx _ IH]; intros s Hs; simpl.
  - apply wp_ret. auto.
  - apply wp_bind. eapply wp_mono; [apply Hf; eauto| |auto].
    intros y s1 [Hy Hs1]. apply wp_bind.
    eapply wp_mono; [apply IH; auto| |auto].
    intros ys s2 (Hlen & Hys & Hs2). apply wp_ret.
    simpl. auto.
Qed.

Lemma wp_replicateM {A} (m : M St A) (I : St -> Prop) (R : A -> Prop) E n :
  (forall s, I s -> wp m s (fun y s' => R y /\ I s') E) ->
  forall s, I s ->
  wp (replicateM n m) s
     (fun ys s' => length ys = n /\ Forall R ys /\ I s') E.
Proof.
  intros Hm. induction n as [|n IH]; intros s Hs; simpl.
  - apply wp_ret. auto.
  - apply wp_bind. eapply wp_mono; [apply Hm; eauto| |auto].
    intros y s1 [Hy Hs1]. apply wp_bind.
    eapply wp_mono; [apply IH; auto| |auto].
    intros ys s2 (Hlen & Hys & Hs2). apply wp_ret.
    simpl. auto.
Qed.

Lemma wp_foldM {A B} (f : B -> A -> M St B) (I : B -> St -> Prop)
    (P : A -> Prop) E xs :
  Forall P xs ->
  (forall acc x s, P x -> I acc s -> wp (f acc x) s I E) ->
  forall acc s, I acc s -> wp (foldM f xs acc) s I E.
Proof.
  intros HP Hf. induction HP as [|x xs Hx _ IH]; intros acc s Hs; simpl.
  - apply wp_ret. auto.
  - apply wp_bind. eapply wp_mono; [apply Hf; eauto| |auto].
    intros acc' s1 Hacc. apply IH; auto.
Qed.
End Rules.

(** * The generator *)

Lemma Qltb_lt (x y : Q) : Qltb x y = true <-> (x < y)%Q.
Proof. unfold Qltb, Qlt. apply Z.ltb_lt. Qed.

Lemma Qltb_nlt (x y : Q) : Qltb x y = false <-> ~ (x < y)%Q.
Proof. unfold Qltb, Qlt. rewrite Z.ltb_ge. lia. Qed.

Lemma random_eq g :
  random g = (Ok (Z.of_N (tape g (pos g)) mod Z.pos two53 # two53), next g).
Proof. reflexivity. Qed.

Lemma random_unit_interval g u g' :
  random g = (Ok u, g') -> (0 <= u)%Q /\ (u < 1)%Q.
Proof.
  rewrite random_eq. intros [= <- _].
  pose proof (Z.mod_pos_bound (Z.of_N (tape g (pos g))) (Z.pos two53)
                ltac:(lia)) as Hb.
  unfold Qle, Qlt. cbn [Qnum Qden]. lia.
Qed.

Lemma wp_random g (Q : Q -> Rng -> Prop) E :
  (forall u, (0 <= u)%Q -> (u < 1)%Q -> Q u (next g)) -> wp random g Q E.
Proof.
  intros H. unfold wp. rewrite random_eq.
  destruct (random_unit_interval g _ _ (random_eq g)). auto.
Qed.

Lemma randrange_eq start stop g :
  start < stop ->
  randrange start stop g
  = (Ok (start + Z.of_N (tape g (pos g)) mod (stop - start)), next g).
Proof.
  intros H. unfold randrange.
  destruct (Z.ltb_spec 0 (stop - start)); [reflexivity|lia].
Qed.

Lemma randrange_empty start stop g :
  stop <= start -> randrange start stop g = (Raise ValueError, g).
Proof.
  intros H. unfold randrange.
  destruct (Z.ltb_spec 0 (stop - start)); [lia|reflexivity].
Qed.

Lemma wp_randrange start stop g (Q : Z -> Rng -> Prop) E :
  (start < stop -> forall v, start <= v < stop -> Q v (next g)) ->
  (stop <= start -> E ValueError g) ->
  wp (randrange start stop) g Q E.
Proof.
  intros Hok Herr. unfold wp.
  destruct (Z.lt_ge_cases start stop) as [Hlt|Hge].
  - rewrite randrange_eq by lia. apply Hok; [lia|].
    pose proof (Z.mod_pos_bound (Z.of_N (tape g (pos g))) (stop - start)
                  ltac:(lia)). lia.
  - rewrite randrange_empty by lia. auto.
Qed.

Lemma randrange1_eq stop g :
  0 < stop ->
  randrange1 stop g = (Ok (Z.of_N (tape g (pos g)) mod stop), next g).
Proof.
  intros H. unfold randrange1.
  destruct (Z.ltb_spec 0 stop); [reflexivity|lia].
Qed.

Lemma wp_randrange1 stop g (Q : Z -> Rng -> Prop) E :
  (0 < stop -> forall v, 0 <= v < stop -> Q v (next g)) ->
  (stop <= 0 -> E ValueError g) ->
  wp (randrange1 stop) g Q E.
Proof.
  intros Hok Herr. unfold wp.
  destruct (Z.lt_ge_cases 0 stop) as [Hlt|Hge].
  - rewrite randrange1_eq by lia. apply Hok; [lia|].
    apply Z.mod_pos_bound; lia.
  - unfold randrange1. destruct (Z.ltb_spec 0 stop); [lia|].
    apply Herr. lia.
Qed.

(** Every value of the range is returned from some generator state. *)
Lemma randrange_onto start stop v :
  start <= v < stop ->
  randrange start stop (tape_of [Z.to_N (v - start)])
  = (Ok v, next (tape_of [Z.to_N (v - start)])).
Proof.
  intros Hv. rewrite randrange_eq by lia. simpl tape. simpl pos. simpl nth.
  rewrite Z2N.id by lia. rewrite Z.mod_small by lia.
  replace (start + (v - start)) with v by lia. reflexivity.
Qed.

(** Every multiple of 2^-53 of the unit interval is drawn from some
    generator state. *)
Lemma random_onto k :
  0 <= k < Z.pos two53 ->
  random (tape_of [Z.to_N k]) = (Ok (k # two53), next (tape_of [Z.to_N k])).
Proof.
  intros Hk. rewrite random_eq. simpl tape. simpl pos. simpl nth.
  rewrite Z2N.id by lia. rewrite Z.mod_small by lia. reflexivity.
Qed.

Lemma wp_make_drifter nc g (Q : Z * Z -> Rng -> Prop) E :
  (0 < nc -> forall c, 0 <= c < nc -> Q (0, c) (next g)) ->
  (nc <= 0 -> E ValueError g) ->
  wp (make_drifter nc) g Q E.
Proof.
  intros Hok Herr. unfold make_drifter. apply wp_bind.
  apply wp_randrange1; [|auto].
  intros Hnc c Hc. apply wp_ret. auto.
Qed.

Lemma choice_eq {A} (seq : list A) g :
  seq <> [] ->
  exists x,
    seq !! Z.to_nat (Z.of_N (tape g (pos g)) mod Z.of_nat (length seq))
      = Some x /\
    choice seq g = (Ok x, next g).
Proof.
  intros Hne. destruct seq as [|y seq']; [congruence|].
  set (seq := y :: seq') in *.
  pose proof (Z.mod_pos_bound (Z.of_N (tape g (pos g)))
                (Z.of_nat (length seq)) ltac:(simpl; lia)) as Hb.
  destruct (lookup_lt_is_Some_2 seq
              (Z.to_nat (Z.of_N (tape g (pos g)) mod Z.of_nat (length seq)))
              ltac:(lia)) as [x Hx].
  exists x. split; [exact Hx|].
  unfold choice, seq at 1. unfold bind, next_raw, getitem. fold seq.
  rewrite py_index_in_range by lia. rewrite Hx. reflexivity.
Qed.

Lemma wp_get_random_hue g (Q : Z -> Rng -> Prop) E :
  (forall v, -60 <= v < 200 -> 0 <= v mod 360 < 360 -> Q (v mod 360) (next g)) ->
  wp get_random_hue g Q E.
Proof.
  intros H. unfold get_random_hue. apply wp_bind.
  apply wp_randrange; [|lia].
  intros _ v Hv. apply wp_py_mod; try lia. intros _ _ Hm. auto.
Qed.

(** * [CoralCell.get_child] *)

(** C6: for a spread [hd >= 0], [get_child] returns a new cell whose
    hue is the parent's plus an offset of [-hd .. hd], reduced modulo
    360, the offset being the entropy entry reduced modulo [2 * hd + 1];
    when the parent's brightness is below 100 a fresh draw [u] of
    [0, 1) is made and the brightness is one more exactly when
    [u < p_brighter]; from 100 on no draw is made and the brightness is
    the parent's.  The method runs on the generator alone, so the
    parent, a value, is as it was. *)
Theorem get_child_spec (parent : CoralCell) (hd : Z) (pb : Q) (g : Rng) :
  0 <= hd ->
  exists d g1,
    randrange (- hd) (hd + 1) g = (Ok d, g1) /\
    d = - hd + Z.of_N (tape g (pos g)) mod (2 * hd + 1) /\
    - hd <= d <= hd /\
    exists child g2,
      get_child parent hd pb g = (Ok child, g2) /\
      hue child = (hue parent + d) mod 360 /\
      (brightness parent < 100 ->
         exists u, random g1 = (Ok u, g2) /\
           (0 <= u)%Q /\ (u < 1)%Q /\
           ((u < pb)%Q -> brightness child = brightness parent + 1) /\
           (~ (u < pb)%Q -> brightness child = brightness parent)) /\
      (100 <= brightness parent ->
         g2 = g1 /\ brightness child = brightness parent).
Proof.
  intros Hhd.
  pose proof (Z.mod_pos_bound (Z.of_N (tape g (pos g))) (2 * hd + 1)
                ltac:(lia)) as Hb.
  exists (- hd + Z.of_N (tape g (pos g)) mod (2 * hd + 1)), (next g).
  split; [|split; [|split]].
  - rewrite randrange_eq by lia.
    replace (hd + 1 - - hd) with (2 * hd + 1) by lia. reflexivity.
  - reflexivity.
  - lia.
  - unfold get_child.
    erewrite bind_ok by (apply randrange_eq; lia).
    replace (hd + 1 - - hd) with (2 * hd + 1) by lia.
    erewrite bind_ok by (apply py_mod_eq; lia).
    destruct (Z.ltb_spec (brightness parent) 100) as [Hlt|Hge].
    + destruct (random_unit_interval _ _ _ (random_eq (next g))) as [H0 H1].
      set (u := (_ # two53)) in *.
      destruct (Qltb u pb) eqn:Hu.
      * erewrite bind_ok
          by (erewrite bind_ok by apply random_eq; fold u; rewrite Hu;
              reflexivity).
        eexists; eexists; split; [reflexivity|].
        split; [reflexivity|]. split; [|intros; simpl in *; lia].
        intros _. exists u. apply Qltb_lt in Hu.
        repeat split; auto; tauto.
      * erewrite bind_ok
          by (erewrite bind_ok by apply random_eq; fold u; rewrite Hu;
              reflexivity).
        eexists; eexists; split; [reflexivity|].
        split; [reflexivity|]. split; [|intros; simpl in *; lia].
        intros _. exists u. apply Qltb_nlt in Hu.
        repeat split; auto; tauto.
    + eexists; eexists; split; [reflexivity|].
      split; [reflexivity|]. split; [simpl; lia|]. auto.
Qed.

Lemma get_child_spec_witness :
  0 <= 2 /\
  exists child g2,
    get_child (mkCoralCell 350 99) 2 0.5 (tape_of [4; 0]%N) = (Ok child, g2) /\
    hue child = 352 mod 360 /\ brightness child = 100.
Proof.
  split; [lia|].
  destruct (get_child_spec (mkCoralCell 350 99) 2 0.5 (tape_of [4; 0]%N)
              ltac:(lia))
    as (d & g1 & Hd & -> & _ & child & g2 & Hc & Hh & Hlt & _).
  exists child, g2. split; [exact Hc|]. split; [exact Hh|].
  destruct (Hlt ltac:(simpl; lia)) as (u & Hu & _ & _ & Hinc & _).
  injection Hd as <-. injection Hu as <- _. apply Hinc. reflexivity.
Defined.

(** * [Board.drift] *)



(** * [Board.get_coral_neighbour] *)

Section Lookup.
Context {St : Type}.
Implicit Types (s : St) (b : Board).

Lemma getitem_eq {A} (l : list A) i x s :
  0 <= i -> l !! Z.to_nat i = Some x -> getitem l i s = (Ok x, s).
Proof.
  intros Hi Hx. unfold getitem.
  pose proof (lookup_lt_Some _ _ _ Hx).
  rewrite py_index_in_range by lia. rewrite Hx. reflexivity.
Qed.

Lemma shape_row b row :
  shape_ok b -> 0 <= row < nb_rows b ->
  exists r, cells b !! Z.to_nat row = Some r /\
            Z.of_nat (length r) = nb_cols b.
Proof.
  intros [Hlen Hrows] Hrow.
  destruct (lookup_lt_is_Some_2 (cells b) (Z.to_nat row) ltac:(lia))
    as [r Hr].
  exists r. split; [exact Hr|].
  rewrite Forall_lookup in Hrows. eapply Hrows; eauto.
Qed.

Lemma getitem_slot b row col r s :
  cells b !! Z.to_nat row = Some r ->
  0 <= col < Z.of_nat (length r) ->
  getitem r col s = (Ok (slot (cells b) row col), s).
Proof.
  intros Hr Hcol.
  destruct (lookup_lt_is_Some_2 r (Z.to_nat col) ltac:(lia)) as [cell Hc].
  unfold slot. rewrite Hr, Hc. apply getitem_eq; [lia|exact Hc].
Qed.

Lemma append_cell_option_list ns cell :
  append_cell ns cell = ns ++ option_list cell.
Proof. destruct cell; simpl; [reflexivity|]. rewrite app_nil_r. reflexivity. Qed.

Lemma collect_neighbours_eq b row col s :
  shape_ok b ->
  on_board (nb_rows b) (nb_cols b) (row, col) ->
  collect_neighbours b row col s = (Ok (collected b row col), s).
Proof.
  intros Hshape [Hrow Hcol]. simpl in Hrow, Hcol.
  unfold collect_neighbours, collected.
  destruct (shape_row b row Hshape Hrow) as (r & Hr & Hlen).
  pose proof (Z.mod_pos_bound (col - 1) (nb_cols b) ltac:(lia)) as Hl.
  pose proof (Z.mod_pos_bound (col + 1) (nb_cols b) ltac:(lia)) as Hr'.
  set (above := if 0 <? row then slot (cells b) (row - 1) col else None).
  set (below := if row <? nb_rows b - 1 then slot (cells b) (row + 1) col
                else None).
  assert (Ha : forall s',
    (if 0 <? row
     then r0 <- getitem (cells b) (row - 1) ;;
          cell <- getitem r0 col ;; ret (append_cell [] cell)
     else ret []) s' = (Ok (option_list above), s')).
  { intros s'. subst above. destruct (Z.ltb_spec 0 row); [|reflexivity].
    destruct (shape_row b (row - 1) Hshape ltac:(lia)) as (ra & Hra & Hla).
    erewrite bind_ok by (apply getitem_eq; [lia|exact Hra]).
    erewrite bind_ok by (eapply getitem_slot; [exact Hra|lia]).
    rewrite append_cell_option_list. reflexivity. }
  assert (Hb : forall s' ns,
    (if row <? nb_rows b - 1
     then r0 <- getitem (cells b) (row + 1) ;;
          cell <- getitem r0 col ;; ret (append_cell ns cell)
     else ret ns) s' = (Ok (ns ++ option_list below), s')).
  { intros s' ns. subst below.
    destruct (Z.ltb_spec row (nb_rows b - 1));
      [|simpl; rewrite app_nil_r; reflexivity].
    destruct (shape_row b (row + 1) Hshape ltac:(lia)) as (rb & Hrb & Hlb).
    erewrite bind_ok by (apply getitem_eq; [lia|exact Hrb]).
    erewrite bind_ok by (eapply getitem_slot; [exact Hrb|lia]).
    rewrite append_cell_option_list. reflexivity. }
  erewrite bind_ok by apply Ha.
  erewrite bind_ok by apply Hb.
  erewrite bind_ok by (apply getitem_eq; [lia|exact Hr]).
  erewrite bind_ok by (apply py_mod_eq; lia).
  erewrite bind_ok by (eapply getitem_slot; [exact Hr|lia]).
  erewrite bind_ok by (apply getitem_eq; [lia|exact Hr]).
  erewrite bind_ok by (apply py_mod_eq; lia).
  erewrite bind_ok by (eapply getitem_slot; [exact Hr|lia]).
  rewrite !append_cell_option_list, <- !app_assoc. reflexivity.
Qed.
End Lookup.

Lemma slot_cell_at (g : grid) row col c :
  slot g row col = Some c -> cell_at g (Z.to_nat row) (Z.to_nat col) c.
Proof.
  unfold slot, cell_at. destruct (g !! Z.to_nat row) as [r|]; [|discriminate].
  destruct (r !! Z.to_nat col) as [cell|] eqn:Hc; [|discriminate].
  intros ->. eauto.
Qed.

Lemma elem_of_option_list {A} (o : option A) (x : A) :
  x ∈ option_list o <-> o = Some x.
Proof.
  destruct o as [y|]; simpl.
  - rewrite list_elem_of_singleton. split; [intros ->|intros [= ->]]; auto.
  - rewrite elem_of_nil. split; [tauto|discriminate].
Qed.

Lemma collected_in_grid b row col c :
  c ∈ collected b row col -> exists n m, cell_at (cells b) n m c.
Proof.
  unfold collected. rewrite !elem_of_app, !elem_of_option_list.
  intros [H|[H|[H|H]]];
    try (destruct (_ <? _); [|discriminate]);
    apply slot_cell_at in H; eauto.
Qed.

(** The lookup returns nothing when nothing was collected, and else the
    collected entry whose index is the entropy entry reduced modulo the
    number of entries. *)
Lemma get_coral_neighbour_eq b row col g :
  shape_ok b ->
  on_board (nb_rows b) (nb_cols b) (row, col) ->
  get_coral_neighbour b row col g
  = match collected b row col with
    | [] => (Ok None, g)
    | ns =>
        (Ok (ns !! Z.to_nat (Z.of_N (tape g (pos g)) mod Z.of_nat (length ns))),
         next g)
    end.
Proof.
  intros Hshape Hpos. unfold get_coral_neighbour.
  erewrite bind_ok by (apply collect_neighbours_eq; assumption).
  destruct (collected b row col) as [|c ns] eqn:Hns; [reflexivity|].
  destruct (choice_eq (c :: ns) g ltac:(discriminate)) as (x & Hx & Hch).
  erewrite bind_ok by exact Hch. rewrite Hx. reflexivity.
Qed.

Lemma wp_get_coral_neighbour b row col g
    (Q : option CoralCell -> Rng -> Prop) E :
  shape_ok b ->
  on_board (nb_rows b) (nb_cols b) (row, col) ->
  (collected b row col = [] -> Q None g) ->
  (forall c, c ∈ collected b row col -> Q (Some c) (next g)) ->
  wp (get_coral_neighbour b row col) g Q E.
Proof.
  intros Hshape Hpos Hnone Hsome. unfold wp.
  rewrite get_coral_neighbour_eq by assumption.
  destruct (collected b row col) as [|c ns] eqn:Hns; [auto|].
  destruct (choice_eq (c :: ns) g ltac:(discriminate)) as (x & Hx & _).
  cbv beta iota zeta. rewrite Hx. apply Hsome. eapply list_elem_of_lookup_2; eauto.
Qed.

(** * [Board.drifter_step] *)

Lemma bind_get_self {B} (k : Board -> M World B) b g :
  bind get_self k (b, g) = k b (b, g).
Proof. reflexivity. Qed.

Lemma bind_update_self {B} (f : Board -> Board) (k : unit -> M World B) b g :
  bind (update_self f) k (b, g) = k tt (f b, g).
Proof. reflexivity. Qed.

Lemma bind_liftR {A B} (m : M Rng A) (k : A -> M World B) b g :
  bind (liftR m) k (b, g)
  = match m g with
    | (Ok a, g1) => k a (b, g1)
    | (Raise e, g1) => (Raise e, (b, g1))
    end.
Proof.
  unfold bind, liftR. simpl. destruct (m g) as [[a|e] g1]; reflexivity.
Qed.

Lemma liftR_eq {A} (m : M Rng A) b g :
  liftR m (b, g) = let (r, g1) := m g in (r, (b, g1)).
Proof. reflexivity. Qed.

Lemma make_drifter_eq nc g :
  0 < nc ->
  make_drifter nc g = (Ok (0, Z.of_N (tape g (pos g)) mod nc), next g).
Proof.
  intros Hnc. unfold make_drifter.
  erewrite bind_ok by (apply randrange1_eq; lia). reflexivity.
Qed.

Lemma alter_insert_lookup {A} (f : A -> A) (l : list A) n x :
  l !! n = Some x -> <[n := f x]> l = alter f n l.
Proof.
  intros Hx. rewrite list_insert_alter. apply list_alter_ext; [|reflexivity].
  intros y Hy. congruence.
Qed.

Lemma write_cell_eq b g row col v :
  shape_ok b ->
  on_board (nb_rows b) (nb_cols b) (row, col) ->
  write_cell row col v (b, g)
  = (Ok tt, (with_cells b (grid_set (cells b) row col v), g)).
Proof.
  intros Hshape [Hrow Hcol]. simpl in Hrow, Hcol.
  destruct (shape_row b row Hshape Hrow) as (r & Hr & Hlen).
  unfold write_cell. rewrite bind_get_self.
  rewrite py_index_in_range by (destruct Hshape; lia). rewrite Hr.
  unfold setitem. rewrite py_index_in_range by lia.
  erewrite bind_ok by reflexivity.
  unfold update_self, grid_set. simpl.
  rewrite (alter_insert_lookup (fun r0 => <[Z.to_nat col := Some v]> r0)
             (cells b) _ r Hr).
  reflexivity.
Qed.

(** The drifter update at a position of the board, in terms of the calls
    it makes. *)
Lemma drifter_step_eq b g row col :
  shape_ok b ->
  on_board (nb_rows b) (nb_cols b) (row, col) ->
  drifter_step row col (b, g)
  = match get_coral_neighbour b row col g with
    | (Ok (Some n), g1) =>
        match get_child n (hue_diff b) (p_brightness b) g1 with
        | (Ok child, g2) =>
            (Ok (0, Z.of_N (tape g2 (pos g2)) mod nb_cols b),
             (settle b row col child, next g2))
        | (Raise e, g2) => (Raise e, (b, g2))
        end
    | (Ok None, g1) =>
        if row =? nb_rows b - 1 then
          match get_random_hue g1 with
          | (Ok h, g2) =>
              (Ok (0, Z.of_N (tape g2 (pos g2)) mod nb_cols b),
               (seed b row col h, next g2))
          | (Raise e, g2) => (Raise e, (b, g2))
          end
        else let (r, g2) := drift b row col g1 in (r, (b, g2))
    | (Raise e, g1) => (Raise e, (b, g1))
    end.
Proof.
  intros Hshape Hpos.
  assert (Hnc : 0 < nb_cols b) by (destruct Hpos; simpl in *; lia).
  unfold drifter_step. rewrite bind_get_self, bind_liftR.
  destruct (get_coral_neighbour b row col g) as [[[n|]|e] g1];
    [| |reflexivity].
  - rewrite bind_liftR.
    destruct (get_child n (hue_diff b) (p_brightness b) g1)
      as [[child|e] g2]; [|reflexivity].
    erewrite bind_ok by (apply write_cell_eq; assumption).
    unfold settle. destruct (row =? 0).
    + rewrite bind_update_self, liftR_eq, make_drifter_eq by exact Hnc.
      rewrite orb_true_r. reflexivity.
    + erewrite bind_ok by reflexivity.
      rewrite liftR_eq, make_drifter_eq by exact Hnc.
      rewrite orb_false_r. reflexivity.
  - destruct (row =? nb_rows b - 1); [|reflexivity].
    rewrite bind_liftR.
    destruct (get_random_hue g1) as [[h|e] g2]; [|reflexivity].
    erewrite bind_ok by (apply write_cell_eq; assumption).
    rewrite liftR_eq, make_drifter_eq by exact Hnc. reflexivity.
Qed.

Lemma wp_get_child parent hd pb g (Q : CoralCell -> Rng -> Prop) E :
  (0 <= hd -> forall c g',
     0 <= hue c < 360 ->
     brightness c = brightness parent \/
     (brightness parent < 100 /\ brightness c = brightness parent + 1) ->
     Q c g') ->
  (hd < 0 -> E ValueError g) ->
  wp (get_child parent hd pb) g Q E.
Proof.
  intros Hok Herr. unfold get_child. apply wp_bind.
  apply wp_randrange; [|intros; apply Herr; lia].
  intros Hhd d Hd. apply wp_bind. apply wp_py_mod; try lia.
  intros _ _ Hhue. apply wp_bind.
  destruct (Z.ltb_spec (brightness parent) 100) as [Hlt|Hge].
  - apply wp_bind. apply wp_random. intros u _ _.
    destruct (Qltb u pb); apply wp_ret; apply wp_ret;
      apply Hok; simpl; auto; lia.
  - apply wp_ret. apply wp_ret. apply Hok; simpl; auto; lia.
Qed.

Lemma wp_drift b row col g (Q : Z * Z -> Rng -> Prop) E :
  on_board (nb_rows b) (nb_cols b) (row, col) ->
  (forall d g', on_board (nb_rows b) (nb_cols b) d -> Q d g') ->
  wp (drift b row col) g Q E.
Proof.
  intros [Hrow Hcol] HQ. simpl in Hrow, Hcol.
  assert (Hmod : forall c g',
            wp (c' <- py_mod c (nb_cols b) ;; ret (row, c')) g' Q E).
  { intros c g'. apply wp_bind. apply wp_py_mod; try lia.
    intros _ _ Hc. apply wp_ret. apply HQ. split; simpl; lia. }
  assert (Hside : forall g',
            wp (u <- random ;;
                if Qltb u (p_right b)
                then c <- py_mod (col + 1) (nb_cols b) ;; ret (row, c)
                else c <- py_mod (col - 1) (nb_cols b) ;; ret (row, c))
               g' Q E).
  { intros g'. apply wp_bind. apply wp_random. intros u _ _.
    destruct (Qltb u (p_right b)); apply Hmod. }
  assert (Hup : forall g',
            wp (up <- (if 0 <? row
                       then u <- random ;; ret (Qltb u p_up)
                       else ret false) ;;
                if up : bool then ret (row - 1, col)
                else
                  u <- random ;;
                  if Qltb u (p_right b)
                  then c <- py_mod (col + 1) (nb_cols b) ;; ret (row, c)
                  else c <- py_mod (col - 1) (nb_cols b) ;; ret (row, c))
               g' Q E).
  { intros g'. apply wp_bind. destruct (Z.ltb_spec 0 row).
    - apply wp_bind. apply wp_random. intros u _ _. apply wp_ret.
      destruct (Qltb u p_up); [|apply Hside].
      apply wp_ret. apply HQ. split; simpl; lia.
    - apply wp_ret. apply Hside. }
  unfold drift. apply wp_bind.
  destruct (Z.ltb_spec row (nb_rows b - 1)).
  - apply wp_bind. apply wp_random. intros u _ _. apply wp_ret.
    destruct (Qltb u (p_down b)); [|apply Hup].
    apply wp_ret. apply HQ. split; simpl; lia.
  - apply wp_ret. apply Hup.
Qed.

Lemma slot_grid_set (g : grid) row col v r :
  0 <= row -> 0 <= col ->
  g !! Z.to_nat row = Some r ->
  (Z.to_nat col < length r)%nat ->
  slot (grid_set g row col v) row col = Some v.
Proof.
  intros Hrow Hcol Hr Hlen. unfold slot, grid_set.
  rewrite list_lookup_alter_eq, Hr. simpl.
  rewrite list_lookup_insert_eq by exact Hlen. reflexivity.
Qed.



(** * Invariants *)

Lemma cell_at_grid_set (g : grid) row col v n m c :
  cell_at (grid_set g row col v) n m c -> c = v \/ cell_at g n m c.
Proof.
  unfold cell_at, grid_set. intros (r & Hr & Hc).
  rewrite list_lookup_alter in Hr. case_decide as Hn.
  - subst n. destruct (g !! Z.to_nat row) as [r0|] eqn:Hr0; [|discriminate].
    simpl in Hr. injection Hr as <-.
    rewrite list_lookup_insert in Hc. case_decide as Hd.
    + left. congruence.
    + right. eauto.
  - right. eauto.
Qed.

Lemma grid_ok_set (g : grid) row col v :
  grid_ok g -> cell_ok v -> grid_ok (grid_set g row col v).
Proof.
  intros Hg Hv n m c Hc.
  apply cell_at_grid_set in Hc as [->|Hc]; [exact Hv|eauto].
Qed.

Lemma shape_ok_set b row col v :
  shape_ok b -> shape_ok (with_cells b (grid_set (cells b) row col v)).
Proof.
  intros [Hlen Hrows]. split; simpl; unfold grid_set.
  - rewrite length_alter. exact Hlen.
  - apply Forall_alter; [exact Hrows|].
    intros r _ Hr. rewrite length_insert. exact Hr.
Qed.

Lemma within_step_refl b :
  shape_ok b -> grid_ok (cells b) -> within_step b b.
Proof.
  intros Hs Hg. split; [repeat split|].
  split; [reflexivity|]. split; [reflexivity|]. split; assumption.
Qed.

Lemma within_step_set b0 b row col v dn :
  within_step b0 b -> cell_ok v ->
  within_step b0
    (with_done (with_cells b (grid_set (cells b) row col v)) dn).
Proof.
  intros (Hp & Hds & Hsn & Hshape & Hgrid) Hv.
  split; [exact Hp|]. split; [exact Hds|]. split; [exact Hsn|]. split.
  - apply (shape_ok_set b row col v Hshape).
  - simpl. apply grid_ok_set; assumption.
Qed.

(** A drifter update at a position of the board returns a position of
    the board and keeps the invariant; it can only raise for a negative
    hue spread, the board being as it was. *)
Lemma wp_drifter_step b0 b g row col :
  0 < nb_rows b0 -> 0 < nb_cols b0 ->
  within_step b0 b ->
  on_board (nb_rows b0) (nb_cols b0) (row, col) ->
  wp (drifter_step row col) (b, g)
     (fun d w => on_board (nb_rows b0) (nb_cols b0) d /\ within_step b0 (fst w))
     (fun e w => hue_diff b0 < 0 /\ within_step b0 (fst w)).
Proof.
  intros Hnr Hnc Hw Hpos.
  pose proof Hw as ((Er & Ec & Eh & Epb & Epd & Epr) & Eds & Esn & Hshape & Hgrid).
  rewrite <- Er, <- Ec in Hpos.
  unfold wp. rewrite drifter_step_eq by assumption.
  pose proof (wp_get_coral_neighbour b row col g
                (fun o _ => match o with
                            | Some n => n ∈ collected b row col
                            | None => True
                            end) never Hshape Hpos
                (fun _ => I) (fun _ H => H)) as Hn.
  apply wp_never in Hn. destruct Hn as (neighbour & g1 & Hn & Hin).
  rewrite Hn. destruct neighbour as [n|].
  - apply collected_in_grid in Hin as (i & j & Hat).
    destruct (Hgrid _ _ _ Hat) as [Hh Hb].
    pose proof (wp_get_child n (hue_diff b) (p_brightness b) g1
      (fun c _ => cell_ok c) (fun _ _ => hue_diff b < 0)) as Hc.
    unfold wp in Hc.
    destruct (get_child n (hue_diff b) (p_brightness b) g1) as [[child|e] g2].
    + assert (Hchild : cell_ok child).
      { apply Hc; [|auto]. intros _ c _ Hhue Hbr. split; [exact Hhue|lia]. }
      pose proof (Z.mod_pos_bound (Z.of_N (tape g2 (pos g2))) (nb_cols b)
                    ltac:(lia)).
      split; [split; simpl; lia|].
      apply within_step_set; assumption.
    + split; [|exact Hw]. rewrite <- Eh. apply Hc; [|auto].
      intros _ c _ Hhue Hbr. split; [exact Hhue|lia].
  - destruct (Z.eqb_spec row (nb_rows b - 1)) as [Hlast|Hnot].
    + pose proof (wp_get_random_hue g1 (fun h _ => 0 <= h < 360) never
                    (fun _ _ H => H)) as Hh.
      apply wp_never in Hh. destruct Hh as (h & g2 & -> & Hh).
      pose proof (Z.mod_pos_bound (Z.of_N (tape g2 (pos g2))) (nb_cols b)
                    ltac:(lia)).
      split; [split; simpl; lia|].
      assert (cell_ok (mkCoralCell h 0)) by (split; simpl; lia).
      apply (within_step_set b0 b row col (mkCoralCell h 0) (done b));
        assumption.
    + pose proof (wp_drift b row col g1
                    (fun d _ => on_board (nb_rows b) (nb_cols b) d) never Hpos
                    (fun _ _ H => H)) as Hd.
      apply wp_never in Hd. destruct Hd as (d & g2 & -> & Hd).
      rewrite Er, Ec in Hd. split; [exact Hd|exact Hw].
Qed.

Lemma wp_drifter_steps b0 ds b g :
  0 < nb_rows b0 -> 0 < nb_cols b0 ->
  Forall (on_board (nb_rows b0) (nb_cols b0)) ds ->
  within_step b0 b ->
  wp (drifter_steps ds) (b, g)
     (fun ds' w => length ds' = length ds /\
                   Forall (on_board (nb_rows b0) (nb_cols b0)) ds' /\
                   within_step b0 (fst w))
     (fun e w => hue_diff b0 < 0 /\ within_step b0 (fst w)).
Proof.
  intros Hnr Hnc Hds Hw. unfold drifter_steps.
  apply (wp_mapM (fun d => drifter_step (fst d) (snd d))
           (fun w => within_step b0 (fst w))
           (on_board (nb_rows b0) (nb_cols b0))
           (on_board (nb_rows b0) (nb_cols b0))); [exact Hds| |exact Hw].
  intros [row col] [b1 g1] Hd Hw1. simpl in *.
  apply wp_drifter_step; assumption.
Qed.

Lemma inv_within_step b0 b ds :
  inv b0 -> within_step b0 b ->
  Forall (on_board (nb_rows b0) (nb_cols b0)) ds ->
  inv (with_drifters b ds).
Proof.
  intros [Hnr Hnc _ _ _] ((Er & Ec & _) & _ & _ & Hshape & Hgrid) Hds.
  constructor; simpl; try lia; try assumption.
  rewrite Er, Ec. exact Hds.
Qed.

Lemma same_params_within_step b0 b ds :
  within_step b0 b -> same_params b0 (with_drifters b ds).
Proof. intros (Hp & _). exact Hp. Qed.

(** An advance of a board that satisfies the invariant keeps it; it can
    only raise for a negative hue spread, and then the drifters are
    those it began with. *)
Lemma wp_step b g :
  inv b ->
  wp step (b, g)
     (fun _ w => inv (fst w) /\ same_params b (fst w) /\
                 step_nb (fst w) = step_nb b + 1 /\
                 length (drifters (fst w)) = length (drifters b))
     (fun e w => hue_diff b < 0 /\ inv (fst w) /\ same_params b (fst w) /\
                 drifters (fst w) = drifters b).
Proof.
  intros Hinv. pose proof Hinv as [Hnr Hnc Hshape Hgrid Hds].
  set (b1 := with_step_nb b (step_nb b + 1)).
  assert (Hinv1 : inv b1) by (constructor; assumption).
  assert (Hw1 : within_step b1 b1) by (apply within_step_refl; assumption).
  unfold wp, step. rewrite bind_update_self. fold b1.
  rewrite bind_get_self.
  pose proof (wp_drifter_steps b1 (drifters b1) b1 g Hnr Hnc Hds Hw1) as Hm.
  unfold wp, drifter_steps in Hm. unfold bind.
  destruct (mapM (fun d => drifter_step (fst d) (snd d)) (drifters b1) (b1, g))
    as [[ds'|e] [b2 g2]]; simpl in *.
  - destruct Hm as (Hlen & Hds' & Hw2).
    split; [eapply (inv_within_step b1); eassumption|].
    split; [apply (same_params_within_step b1 b2 ds' Hw2)|].
    split; [apply Hw2|exact Hlen].
  - destruct Hm as (Hhd & Hw2). split; [exact Hhd|].
    pose proof Hw2 as (Hp & Eds & _).
    split; [|split; [exact Hp|exact Eds]].
    replace b2 with (with_drifters b2 (drifters b1))
      by (destruct b2; simpl in *; subst; reflexivity).
    eapply (inv_within_step b1); eassumption.
Qed.

Lemma same_params_trans b1 b2 b3 :
  same_params b1 b2 -> same_params b2 b3 -> same_params b1 b3.
Proof.
  unfold same_params. intros (?&?&?&?&?&?) (?&?&?&?&?&?).
  repeat split; congruence.
Qed.

Lemma advances_inv b0 b :
  inv b0 -> advances b0 b ->
  inv b /\ same_params b0 b /\ length (drifters b) = length (drifters b0).
Proof.
  intros Hinv Hadv. induction Hadv as [|b g r b' g' _ IH Hstep].
  - split; [exact Hinv|]. split; [repeat split|reflexivity].
  - destruct IH as (Hb & Hp & Hlen).
    pose proof (wp_eq _ _ _ _ _ _ (wp_step b g Hb) Hstep) as H.
    destruct r as [[]|e]; simpl in H.
    + destruct H as (Hb' & Hp' & _ & Hlen').
      split; [exact Hb'|]. split; [eapply same_params_trans; eauto|lia].
    + destruct H as (_ & Hb' & Hp' & Eds).
      split; [exact Hb'|].
      split; [eapply same_params_trans; eauto|congruence].
Qed.

(** * [Board.__init__] *)

Lemma make_drifters_ok n nc g :
  (n = 0%nat \/ 0 < nc) ->
  exists ds g',
    replicateM n (make_drifter nc) g = (Ok ds, g') /\
    length ds = n /\
    Forall (fun d => fst d = 0 /\ 0 <= snd d < nc) ds.
Proof.
  intros Hn. apply wp_never.
  destruct Hn as [->|Hnc]; [apply wp_ret; auto|].
  eapply wp_mono;
    [apply (wp_replicateM (make_drifter nc) (fun _ => True)
              (fun d => fst d = 0 /\ 0 <= snd d < nc) never n); [|exact I]
    | |auto].
  - intros g0 _. apply wp_make_drifter; [|lia]. intros _ c Hc. simpl. auto.
  - intros ds g' (Hlen & Hds & _). auto.
Qed.

Lemma Board_init_eq nr nc hd pb db rb g :
  exists ds g',
    length ds = Z.to_nat nc /\
    Forall (fun d => fst d = 0 /\ 0 <= snd d < nc) ds /\
    Board_init nr nc hd pb db rb g
    = (if nr =? 0 then Raise ZeroDivisionError
       else Ok (mkBoard nr nc
                  (replicate (Z.to_nat nr) (replicate (Z.to_nat nc) None))
                  0 false ds hd (pb * 100 / inject_Z nr)%Q
                  (0.25 + 0.75 * db)%Q (0.5 + rb / 2)%Q),
       g').
Proof.
  destruct (make_drifters_ok (Z.to_nat nc) nc g ltac:(lia))
    as (ds & g' & Hrep & Hlen & Hds).
  exists ds, g'. split; [exact Hlen|]. split; [exact Hds|].
  unfold Board_init. erewrite bind_ok by exact Hrep.
  destruct (nr =? 0); reflexivity.
Qed.

Lemma empty_grid_ok n m : grid_ok (replicate n (replicate m None)).
Proof.
  intros i j c (r & Hr & Hc).
  apply lookup_replicate in Hr as [-> _].
  apply lookup_replicate in Hc as [Hc _]. discriminate.
Qed.

Lemma Board_init_inv nr nc hd pb db rb g :
  0 < nr -> 0 < nc ->
  exists b g',
    Board_init nr nc hd pb db rb g = (Ok b, g') /\
    inv b /\ nb_rows b = nr /\ nb_cols b = nc /\ hue_diff b = hd /\
    Z.of_nat (length (drifters b)) = nc /\
    cells b = replicate (Z.to_nat nr) (replicate (Z.to_nat nc) None) /\
    done b = false /\ step_nb b = 0.
Proof.
  intros Hnr Hnc.
  destruct (Board_init_eq nr nc hd pb db rb g) as (ds & g' & Hlen & Hds & Heq).
  destruct (Z.eqb_spec nr 0); [lia|].
  eexists; exists g'. split; [exact Heq|]. simpl.
  split; [|repeat split; lia].
  constructor; simpl; try assumption.
  - split; simpl.
    + rewrite length_replicate. lia.
    + apply Forall_replicate. rewrite length_replicate. lia.
  - apply empty_grid_ok.
  - eapply Forall_impl; [exact Hds|].
    intros [r c] [Hr Hc]. simpl in *. split; simpl; lia.
Qed.

(** * Snapshots *)

Section Snapshots.
Context {St : Type}.
Implicit Types (s : St) (b : Board).

Lemma range_bounds n : Forall (fun i => 0 <= i < n) (range n).
Proof. unfold range. apply Forall_seqZ. intros i Hi. lia. Qed.

Lemma wp_px_set w h im x y v s E :
  image_shape w h im -> 0 <= x < w -> 0 <= y < h ->
  wp (px_set im x y v) s (fun im' s' => image_shape w h im') E.
Proof.
  intros [Hlen Hrows] Hx Hy. unfold px_set.
  destruct (Z.leb_spec 0 y); [|lia].
  destruct (Z.ltb_spec y (Z.of_nat (length im))); [|lia]. simpl.
  destruct (lookup_lt_is_Some_2 im (Z.to_nat y) ltac:(lia)) as [r Hr].
  rewrite Hr.
  assert (Hlr : Z.of_nat (length r) = w).
  { rewrite Forall_lookup in Hrows. eapply Hrows; eauto. }
  destruct (Z.leb_spec 0 x); [|lia].
  destruct (Z.ltb_spec x (Z.of_nat (length r))); [|lia]. simpl.
  apply wp_ret. split.
  - rewrite length_insert. exact Hlen.
  - apply Forall_insert; [exact Hrows|]. rewrite length_insert. exact Hlr.
Qed.

Lemma wp_read_slot {B} b row col (k : option CoralCell -> M St B) s
    (Q : B -> St -> Prop) E :
  shape_ok b -> 0 <= row < nb_rows b -> 0 <= col < nb_cols b ->
  wp (k (slot (cells b) row col)) s Q E ->
  wp (r <- getitem (cells b) row ;; cell <- getitem r col ;; k cell) s Q E.
Proof.
  intros Hshape Hrow Hcol HQ.
  destruct (shape_row b row Hshape Hrow) as (r & Hr & Hlen).
  unfold wp. erewrite bind_ok by (apply getitem_eq; [lia|exact Hr]).
  erewrite bind_ok by (eapply getitem_slot; [exact Hr|lia]). exact HQ.
Qed.

Lemma wp_print_to_image b show_drifters s :
  inv b ->
  wp (print_to_image b show_drifters) s
     (fun im _ => image_shape (nb_cols b) (nb_rows b) im) never.
Proof.
  intros [Hnr Hnc Hshape Hgrid Hds]. unfold print_to_image.
  apply wp_bind. unfold Image_new.
  destruct (Z.ltb_spec (nb_cols b) 0); [lia|].
  destruct (Z.ltb_spec (nb_rows b) 0); [lia|]. simpl.
  apply wp_ret. apply wp_bind.
  eapply wp_mono;
    [apply (wp_foldM _ (fun im _ => image_shape (nb_cols b) (nb_rows b) im)
              (fun i => 0 <= i < nb_rows b) never (range (nb_rows b))
              (range_bounds _))
    | |auto].
  - intros im row s1 Hrow Him.
    apply (wp_foldM _ (fun im _ => image_shape (nb_cols b) (nb_rows b) im)
             (fun i => 0 <= i < nb_cols b) never (range (nb_cols b))
             (range_bounds _)); [|exact Him].
    clear im Him. intros im col s2 Hcol Him.
    apply (wp_read_slot b row col
             (fun cell =>
                match cell with
                | Some c =>
                    colour <- getrgb_hsv (hue c) (brightness c) ;;
                    px_set im col row colour
                | None => ret im
                end)); try assumption.
    destruct (slot (cells b) row col) as [c|] eqn:Hc;
      [|apply wp_ret; exact Him].
    apply slot_cell_at, Hgrid in Hc as [Hh Hb].
    apply wp_bind. unfold getrgb_hsv.
    destruct (Z.leb_spec 0 (hue c)); [|lia].
    destruct (Z.leb_spec 0 (brightness c)); [|lia]. simpl.
    apply wp_ret. apply wp_px_set; assumption.
  - split; simpl.
    + rewrite length_replicate. lia.
    + apply Forall_replicate. rewrite length_replicate. lia.
  - intros im s1 Him. destruct show_drifters; [|apply wp_ret; exact Him].
    apply (wp_foldM _ (fun im _ => image_shape (nb_cols b) (nb_rows b) im)
             (on_board (nb_rows b) (nb_cols b)) never (drifters b) Hds);
      [|exact Him].
    intros im' [row col] s2 [Hrow Hcol] Him'. simpl in *.
    apply wp_px_set; assumption.
Qed.

Lemma wp_print_cell b row col s :
  shape_ok b -> 0 <= row < nb_rows b -> 0 <= col < nb_cols b ->
  wp (print_cell b row col) s (fun _ _ => True) never.
Proof.
  intros Hshape Hrow Hcol. unfold print_cell.
  destruct (is_drifter b row col); [apply wp_ret; exact I|].
  apply (wp_read_slot b row col
           (fun cell =>
              match cell with
              | Some _ => ret "#"%string
              | None => ret " "%string
              end)); try assumption.
  destruct (slot (cells b) row col); apply wp_ret; exact I.
Qed.

Lemma wp_Board_str b s :
  inv b -> wp (Board_str b) s (fun _ _ => True) never.
Proof.
  intros [Hnr Hnc Hshape Hgrid Hds]. unfold Board_str. apply wp_bind.
  eapply wp_mono;
    [apply (wp_mapM _ (fun _ => True) (fun i => 0 <= i < nb_rows b)
              (fun _ => True) never (range (nb_rows b)) (range_bounds _));
     [|exact I]
    | |auto].
  - intros row s1 Hrow _. apply wp_bind.
    eapply wp_mono;
      [apply (wp_mapM _ (fun _ => True) (fun i => 0 <= i < nb_cols b)
                (fun _ => True) never (range (nb_cols b)) (range_bounds _));
       [|exact I]
      | |auto].
    + intros col s2 Hcol _.
      eapply wp_mono; [apply wp_print_cell; assumption| |auto].
      intros; auto.
    + intros cs s2 _. apply wp_ret. auto.
  - intros lines s1 _. apply wp_ret. exact I.
Qed.
End Snapshots.

(** * Properties of a run *)

(** C8: a board of positive dimensions is constructed with [nb_cols]
    drifters and has [nb_cols] drifters after every sequence of
    advances, whether they return or raise. *)
Theorem drifter_count_constant (nr nc hd : Z) (pb db rb : Q) (g : Rng) :
  0 < nr -> 0 < nc ->
  exists b0 g0,
    Board_init nr nc hd pb db rb g = (Ok b0, g0) /\
    Z.of_nat (length (drifters b0)) = nc /\
    forall b, advances b0 b ->
      nb_cols b = nc /\ Z.of_nat (length (drifters b)) = nc.
Proof.
  intros Hnr Hnc.
  destruct (Board_init_inv nr nc hd pb db rb g Hnr Hnc)
    as (b0 & g0 & Hinit & Hinv & _ & Ec & _ & Hlen & _).
  exists b0, g0. split; [exact Hinit|]. split; [exact Hlen|].
  intros b Hadv.
  destruct (advances_inv b0 b Hinv Hadv) as (_ & (_ & Ec' & _) & Hlen').
  split; [congruence|lia].
Qed.

Lemma drifter_count_constant_witness :
  0 < 2 /\ 0 < 3 /\
  exists b0 g0,
    Board_init 2 3 2 0.8 0.3 0 (tape_of [5; 1; 0]%N) = (Ok b0, g0) /\
    Z.of_nat (length (drifters b0)) = 3.
Proof.
  split; [lia|]. split; [lia|].
  destruct (drifter_count_constant 2 3 2 0.8 0.3 0 (tape_of [5; 1; 0]%N)
              ltac:(lia) ltac:(lia)) as (b0 & g0 & Hinit & Hlen & _).
  exists b0, g0. split; assumption.
Defined.

(** C9, amended: a board of positive dimensions and of hue spread at
    least 0 is constructed without error, and after every sequence of
    advances every drifter is at a position of the grid, the next
    advance returns whatever the generator, and both snapshots are
    produced: no subscript leaves the grid or the image and no range
    is empty. *)
Theorem no_runtime_error (nr nc hd : Z) (pb db rb : Q) (g : Rng) :
  0 < nr -> 0 < nc -> 0 <= hd ->
  exists b0 g0,
    Board_init nr nc hd pb db rb g = (Ok b0, g0) /\
    forall b, advances b0 b ->
      shape_ok b /\
      Forall (on_board nr nc) (drifters b) /\
      (forall g1, exists b' g2, step (b, g1) = (Ok tt, (b', g2))) /\
      (forall show_drifters, exists im,
         print_to_image b show_drifters tt = (Ok im, tt) /\
         image_shape nc nr im) /\
      (exists txt, Board_str b tt = (Ok txt, tt)).
Proof.
  intros Hnr Hnc Hhd.
  destruct (Board_init_inv nr nc hd pb db rb g Hnr Hnc)
    as (b0 & g0 & Hinit & Hinv & Er & Ec & Eh & _).
  exists b0, g0. split; [exact Hinit|]. intros b Hadv.
  destruct (advances_inv b0 b Hinv Hadv) as (Hb & (Er' & Ec' & Eh' & _) & _).
  split; [apply Hb|]. split; [|split; [|split]].
  - rewrite <- Er, <- Ec, <- Er', <- Ec'. apply Hb.
  - intros g1. pose proof (wp_step b g1 Hb) as Hs. unfold wp in Hs.
    destruct (step (b, g1)) as [[[]|e] [b' g2]]; [eauto|].
    destruct Hs as [Hneg _]. lia.
  - intros sd. pose proof (wp_print_to_image b sd tt Hb) as Hp.
    apply wp_never in Hp. destruct Hp as (im & [] & Hp & Him).
    exists im. split; [exact Hp|]. rewrite <- Er, <- Ec, <- Er', <- Ec'.
    exact Him.
  - pose proof (wp_Board_str b tt Hb) as Hp.
    apply wp_never in Hp. destruct Hp as (txt & [] & Hp & _). eauto.
Qed.

Lemma no_runtime_error_witness :
  0 < 2 /\ 0 < 3 /\ 0 <= 2 /\
  exists b0 g0 b1 g1,
    Board_init 2 3 2 0.8 0.3 0 (tape_of [5; 1; 0]%N) = (Ok b0, g0) /\
    step (b0, g0) = (Ok tt, (b1, g1)).
Proof.
  split; [lia|]. split; [lia|]. split; [lia|].
  destruct (no_runtime_error 2 3 2 0.8 0.3 0 (tape_of [5; 1; 0]%N)
              ltac:(lia) ltac:(lia) ltac:(lia)) as (b0 & g0 & Hinit & Hrun).
  destruct (Hrun b0 (advances_none b0)) as (_ & _ & Hstep & _).
  destruct (Hstep g0) as (b1 & g1 & Hs).
  exists b0, g0, b1, g1. split; assumption.
Defined.

(** C9 as stated fails: on a 1 x 1 board of hue spread -1 the first
    advance seeds and the second, settling, asks for an offset in an
    empty range. *)
Lemma negative_hue_diff_raises :
  exists b0 g0 b1 g1 w,
    Board_init 1 1 (-1) 0.8 0.3 0 (tape_of []) = (Ok b0, g0) /\
    step (b0, g0) = (Ok tt, (b1, g1)) /\
    step (b1, g1) = (Raise ValueError, w).
Proof.
  do 5 eexists. split; [reflexivity|]. split; [reflexivity|].
  vm_compute. reflexivity.
Qed.

Lemma descends_brightness hd pb p c :
  descends hd pb p c ->
  brightness p <= brightness c /\
  (brightness p <= 100 -> brightness c <= 100).
Proof.
  induction 1 as [|c g c' g' _ IH Hc]; [lia|].
  pose proof (wp_get_child c hd pb g
                (fun c' _ => brightness c <= brightness c' /\
                             (brightness c <= 100 -> brightness c' <= 100))
                (fun _ _ => True)) as Hwp.
  unfold wp in Hwp. rewrite Hc in Hwp.
  destruct Hwp as [H1 H2]; [|auto|lia].
  intros _ c0 _ _ Hbr. lia.
Qed.

Lemma visited_grid_ok b0 b :
  inv b0 -> visited b0 b -> grid_ok (cells b) /\ same_params b0 b.
Proof.
  intros Hinv [b1 Hadv|b1 g pre post r b' g' Hadv Hds Hrun].
  - destruct (advances_inv b0 b1 Hinv Hadv) as (Hb & Hp & _).
    split; [apply Hb|exact Hp].
  - destruct (advances_inv b0 b1 Hinv Hadv) as ([Hnr Hnc Hs Hg Hd] & Hp & _).
    set (b2 := with_step_nb b1 (step_nb b1 + 1)) in *.
    rewrite Hds in Hd. apply Forall_app in Hd as [Hpre _].
    pose proof (wp_drifter_steps b2 pre b2 g Hnr Hnc Hpre
                  (within_step_refl b2 Hs Hg)) as Hwp.
    pose proof (wp_eq _ _ _ _ _ _ Hwp Hrun) as H.
    assert (Hw : within_step b2 b') by (destruct r; simpl in H; apply H).
    destruct Hw as (Hp2 & _ & _ & _ & Hg').
    split; [exact Hg'|]. eapply same_params_trans; [exact Hp|exact Hp2].
Qed.

(** C7: on a board constructed with positive dimensions, at every
    moment of every sequence of advances, between two advances or
    part-way through one, each cell of the grid has its hue in
    [0, 360) and its brightness in [0, 100]; and along a chain of
    [get_child] calls the brightness never decreases and, from a cell
    of the grid, never exceeds 100. *)
Theorem cells_stay_in_range (nr nc hd : Z) (pb db rb : Q) (g g0 : Rng)
    (b0 : Board) :
  0 < nr -> 0 < nc ->
  Board_init nr nc hd pb db rb g = (Ok b0, g0) ->
  forall b, visited b0 b ->
    (forall n m c, cell_at (cells b) n m c ->
       0 <= hue c < 360 /\ 0 <= brightness c <= 100) /\
    (forall p c, descends (hue_diff b) (p_brightness b) p c ->
       brightness p <= brightness c /\
       (forall n m, cell_at (cells b) n m p -> brightness c <= 100)).
Proof.
  intros Hnr Hnc Hinit b Hvis.
  destruct (Board_init_inv nr nc hd pb db rb g Hnr Hnc)
    as (b0' & g0' & Hinit' & Hinv & _).
  rewrite Hinit in Hinit'. injection Hinit' as <- <-.
  destruct (visited_grid_ok b0 b Hinv Hvis) as [Hgrid _].
  split; [exact Hgrid|].
  intros p c Hdesc. destruct (descends_brightness _ _ _ _ Hdesc) as [Hle Hcap].
  split; [exact Hle|]. intros n m Hat. apply Hcap.
  destruct (Hgrid n m p Hat) as [_ Hb]. lia.
Qed.

Lemma cells_stay_in_range_witness :
  0 < 1 /\ 0 < 1 /\
  exists b0 g0 b1 g1,
    Board_init 1 1 2 0.8 0.3 0 (tape_of []) = (Ok b0, g0) /\
    step (b0, g0) = (Ok tt, (b1, g1)) /\
    cell_at (cells b1) 0 0 (mkCoralCell 300 0) /\
    forall n m c,
      cell_at (cells b1) n m c ->
      0 <= hue c < 360 /\ 0 <= brightness c <= 100.
Proof.
  split; [lia|]. split; [lia|].
  do 4 eexists. split; [reflexivity|]. split; [reflexivity|].
  split; [eexists; split; reflexivity|].
  eapply proj1.
  eapply (cells_stay_in_range 1 1 2 0.8 0.3 0 (tape_of []));
    [lia|lia|reflexivity|].
  apply visited_between.
  eapply (advances_step _ _ (next (tape_of []))); [apply advances_none|].
  reflexivity.
Defined.

(** * Construction on Python numbers *)

Lemma in_double_range_int n :
  in_double_range (inject_Z n) = (Z.abs n <? double_limit).
Proof.
  unfold in_double_range, Qltb. simpl. rewrite !Z.mul_1_r. reflexivity.
Qed.

Lemma double_limit_pos : 100 < double_limit.
Proof. reflexivity. Qed.

Lemma to_float_eq {St} n (s : St) :
  to_float n s
  = (if Z.abs n <? double_limit then Ok (inject_Z n) else Raise OverflowError, s).
Proof.
  unfold to_float. rewrite in_double_range_int.
  destruct (Z.abs n <? double_limit); reflexivity.
Qed.

Lemma to_float_small {St} n (s : St) :
  Z.abs n <= 100 -> to_float n s = (Ok (inject_Z n), s).
Proof.
  intros Hn. rewrite to_float_eq.
  pose proof double_limit_pos.
  destruct (Z.ltb_spec (Z.abs n) double_limit); [reflexivity|lia].
Qed.

Lemma rows_of_none_eq maxsize n nc (g : Rng) :
  replicateM n (list_repeat maxsize (@None CoralCell) nc) g
  = (if (0 <? Z.of_nat n) && negb (fits_index maxsize nc)
     then Raise OverflowError
     else Ok (replicate n (replicate (Z.to_nat nc) None)), g).
Proof.
  destruct (fits_index maxsize nc) eqn:Hfit.
  - rewrite andb_false_r.
    induction n as [|n IH]; [reflexivity|].
    simpl replicateM. unfold list_repeat at 1. rewrite Hfit.
    unfold bind at 1. simpl. unfold bind at 1. rewrite IH. reflexivity.
  - destruct n as [|n]; [reflexivity|].
    simpl replicateM. unfold bind at 1, list_repeat at 1. rewrite Hfit.
    reflexivity.
Qed.

Lemma scaled_brightness_eq (p : num) nr (g : Rng) :
  exists q,
    (a <- py_mul p (Int 100) ;; py_truediv a (Int nr)) g
    = (if nr =? 0 then Raise ZeroDivisionError
       else if match p with
               | Int n => in_double_range (inject_Z (n * 100) / inject_Z nr)
               | Float _ => in_double_range (inject_Z nr)
               end
            then Ok (Float q) else Raise OverflowError, g).
Proof.
  destruct p as [n|x].
  - exists (inject_Z (n * 100) / inject_Z nr)%Q.
    unfold bind, py_mul, py_truediv, ret, raise.
    destruct (nr =? 0); [reflexivity|].
    destruct (in_double_range _); reflexivity.
  - exists (x * inject_Z 100 / inject_Z nr)%Q.
    unfold py_mul, py_truediv, as_float, bind, ret, raise.
    rewrite (to_float_small 100) by (simpl; lia). cbv beta iota.
    rewrite to_float_eq, in_double_range_int.
    destruct (Z.eqb_spec nr 0) as [->|Hnz]; [reflexivity|].
    destruct (Z.abs nr <? double_limit); [|reflexivity].
    change (Qnum (inject_Z nr)) with nr.
    destruct (Z.eqb_spec nr 0); [lia|reflexivity].
Qed.

Lemma down_probability_eq (d : num) (g : Rng) :
  exists q,
    (a <- py_mul (Float 0.75) d ;; py_add (Float 0.25) a) g
    = (if match d with
          | Int n => in_double_range (inject_Z n)
          | Float _ => true
          end
       then Ok (Float q) else Raise OverflowError, g).
Proof.
  destruct d as [n|x].
  - exists (0.25 + 0.75 * inject_Z n)%Q.
    unfold py_mul, py_add, as_float, bind, ret, raise, to_float.
    destruct (in_double_range (inject_Z n)); reflexivity.
  - exists (0.25 + 0.75 * x)%Q. reflexivity.
Qed.

Lemma right_probability_eq (r : num) (g : Rng) :
  exists q,
    (a <- py_truediv r (Int 2) ;; py_add (Float 0.5) a) g
    = (if match r with
          | Int n => in_double_range (inject_Z n / inject_Z 2)
          | Float _ => true
          end
       then Ok (Float q) else Raise OverflowError, g).
Proof.
  destruct r as [n|x].
  - exists (0.5 + inject_Z n / inject_Z 2)%Q.
    unfold py_truediv, py_add, as_float, bind, ret, raise. simpl (2 =? 0).
    destruct (in_double_range _); reflexivity.
  - exists (0.5 + x / inject_Z 2)%Q.
    unfold py_truediv, py_add, as_float, bind, ret, raise.
    rewrite (to_float_small 2) by (simpl; lia). reflexivity.
Qed.

Lemma bind_raise {St A B} (m : M St A) (k : A -> M St B) (s s' : St) e :
  m s = (Raise e, s') -> bind m k s = (Raise e, s').
Proof. unfold bind. intros ->. reflexivity. Qed.

Lemma Board_construct_eq maxsize nr nc hd (p d r : num) (g : Rng) :
  exists ds g' pb pd pr,
    length ds = Z.to_nat nc /\
    Board_construct maxsize nr nc hd p d r g
    = (if (0 <? nr) && negb (fits_index maxsize nc)
       then (Raise OverflowError, g)
       else (if nr =? 0 then Raise ZeroDivisionError
             else if float_overflow nr p d r then Raise OverflowError
             else Ok (mkBoard nr nc
                        (replicate (Z.to_nat nr) (replicate (Z.to_nat nc) None))
                        0 false ds hd pb pd pr),
             g')).
Proof.
  destruct (make_drifters_ok (Z.to_nat nc) nc g ltac:(lia))
    as (ds & g' & Hrep & Hlen & _).
  destruct (scaled_brightness_eq p nr g') as [pb Hpb].
  destruct (down_probability_eq d g') as [pd Hpd].
  destruct (right_probability_eq r g') as [pr Hpr].
  exists ds, g', pb, pd, pr. split; [exact Hlen|].
  pose proof (rows_of_none_eq maxsize (Z.to_nat nr) nc g) as Hrows.
  replace (0 <? Z.of_nat (Z.to_nat nr)) with (0 <? nr) in Hrows
    by (destruct (Z.ltb_spec 0 nr), (Z.ltb_spec 0 (Z.of_nat (Z.to_nat nr)));
        [reflexivity|lia|lia|reflexivity]).
  unfold Board_construct.
  destruct ((0 <? nr) && negb (fits_index maxsize nc)).
  { apply bind_raise. exact Hrows. }
  erewrite bind_ok by exact Hrows. cbv zeta.
  erewrite bind_ok by exact Hrep.
  unfold float_overflow.
  destruct (nr =? 0).
  { apply bind_raise. exact Hpb. }
  destruct (match p with
            | Int n => in_double_range (inject_Z (n * 100) / inject_Z nr)
            | Float _ => in_double_range (inject_Z nr)
            end).
  2: { apply bind_raise. exact Hpb. }
  erewrite bind_ok by exact Hpb.
  destruct (match d with
            | Int n => in_double_range (inject_Z n)
            | Float _ => true
            end).
  2: { apply bind_raise. exact Hpd. }
  erewrite bind_ok by exact Hpd.
  destruct (match r with
            | Int n => in_double_range (inject_Z n / inject_Z 2)
            | Float _ => true
            end).
  2: { apply bind_raise. exact Hpr. }
  erewrite bind_ok by exact Hpr.
  reflexivity.
Qed.

(** With float parameters, a number of rows within the range of a
    double and an index-sized number of columns, construction on
    Python numbers is [Board_init]. *)
Lemma Board_construct_floats maxsize nr nc hd (pb db rb : Q) (g : Rng) :
  nr <= 0 \/ fits_index maxsize nc = true ->
  Z.abs nr < double_limit ->
  Board_construct maxsize nr nc hd (Float pb) (Float db) (Float rb) g
  = Board_init nr nc hd pb db rb g.
Proof.
  intros Hnc Hnr.
  pose proof (rows_of_none_eq maxsize (Z.to_nat nr) nc g) as Hrows.
  replace ((0 <? Z.of_nat (Z.to_nat nr)) && negb (fits_index maxsize nc))
    with false in Hrows.
  2: { destruct Hnc as [Hle| ->]; [|rewrite andb_false_r; reflexivity].
       destruct (Z.ltb_spec 0 (Z.of_nat (Z.to_nat nr))); [lia|reflexivity]. }
  unfold Board_construct, Board_init.
  erewrite bind_ok by exact Hrows. cbv zeta.
  destruct (replicateM (Z.to_nat nc) (make_drifter nc) g) as [[ds|e] g'] eqn:Hrep.
  2: { rewrite (bind_raise _ _ _ _ _ Hrep).
       unfold bind. rewrite Hrep. reflexivity. }
  rewrite !(bind_ok _ _ _ _ _ Hrep).
  unfold py_mul, py_truediv, py_add, as_float, bind, ret, raise.
  rewrite (to_float_small 100) by (simpl; lia). cbv beta iota.
  rewrite (to_float_eq nr).
  destruct (Z.ltb_spec (Z.abs nr) double_limit); [|lia].
  change (Qnum (inject_Z nr)) with nr.
  destruct (nr =? 0); [reflexivity|]. cbv beta iota.
  rewrite (to_float_small 2) by (simpl; lia). reflexivity.
Qed.

(** * Failures of construction *)

(** C2, amended: construction validates nothing.  It raises
    [OverflowError] on building the first row when [nb_rows] is
    positive and [nb_cols] is not index-sized; otherwise it raises
    [ZeroDivisionError] when [nb_rows] is 0, [OverflowError] when
    [nb_rows] is not 0 and a magnitude of the arithmetic of its last
    three assignments is beyond the range of a double, and in every
    other case, a negative [nb_rows] and [nb_cols <= 0] included, it
    returns a board, whose grid is empty for a negative [nb_rows] and
    which has no drifter for [nb_cols <= 0]. *)
Theorem construction_raises_only_on_zero_rows_or_overflow
    (maxsize nr nc hd : Z) (p d r : num) (g : Rng) :
  (0 < nr /\ fits_index maxsize nc = false /\
   Board_construct maxsize nr nc hd p d r g = (Raise OverflowError, g))
  \/
  ((nr <= 0 \/ fits_index maxsize nc = true) /\
   ((nr = 0 /\
     exists g',
       Board_construct maxsize nr nc hd p d r g = (Raise ZeroDivisionError, g'))
    \/
    (nr <> 0 /\ float_overflow nr p d r = true /\
     exists g',
       Board_construct maxsize nr nc hd p d r g = (Raise OverflowError, g'))
    \/
    (nr <> 0 /\ float_overflow nr p d r = false /\
     exists b g',
       Board_construct maxsize nr nc hd p d r g = (Ok b, g') /\
       nb_rows b = nr /\ nb_cols b = nc /\ hue_diff b = hd /\
       cells b = replicate (Z.to_nat nr) (replicate (Z.to_nat nc) None) /\
       length (drifters b) = Z.to_nat nc /\
       done b = false /\ step_nb b = 0))).
Proof.
  destruct (Board_construct_eq maxsize nr nc hd p d r g)
    as (ds & g' & pb & pd & pr & Hlen & Heq).
  destruct (Z.ltb_spec 0 nr) as [Hpos|Hneg];
    destruct (fits_index maxsize nc) eqn:Hfit; simpl in Heq.
  2: { left. auto. }
  all: right; split; [auto|].
  all: destruct (Z.eqb_spec nr 0) as [Hz|Hnz];
    [left; split; [exact Hz|]; exists g'; exact Heq|right].
  all: destruct (float_overflow nr p d r);
    [left; split; [exact Hnz|]; split; [reflexivity|]; exists g'; exact Heq
    |right; split; [exact Hnz|]; split; [reflexivity|]].
  all: eexists; exists g'; split; [exact Heq|]; simpl; repeat split; exact Hlen.
Qed.

(** C2 as stated fails: with the default parameters a board of -1 rows
    and 0 columns is constructed. *)
Lemma construction_accepts_nonpositive_dimensions :
  exists b g',
    Board_construct (2 ^ 63 - 1) (-1) 0 2 (Float 0.8) (Float 0.3) (Int 0)
      (tape_of []) = (Ok b, g') /\
    cells b = [] /\ drifters b = [].
Proof. do 2 eexists. split; [vm_compute; reflexivity|]. split; reflexivity. Qed.

(** A number of rows beyond the range of a double cannot divide the
    float [p_brightness * 100], whatever its sign. *)
Lemma construction_overflows_on_huge_rows :
  Board_construct (2 ^ 63 - 1) (- 10 ^ 400) 1 2 (Float 0.8) (Float 0.3) (Int 0)
    (tape_of [])
  = (Raise OverflowError, next (tape_of [])).
Proof. vm_compute. reflexivity. Qed.

(** Neither can an [int] [p_brightness] whose quotient by [nb_rows] is
    beyond it. *)
Lemma construction_overflows_on_huge_brightness :
  Board_construct (2 ^ 63 - 1) 1 1 2 (Int (10 ^ 400)) (Float 0.3) (Int 0)
    (tape_of [])
  = (Raise OverflowError, next (tape_of [])).
Proof. vm_compute. reflexivity. Qed.

(** A row cannot repeat [None] a number of times that is not
    index-sized, negative or not. *)
Lemma construction_overflows_on_huge_columns :
  Board_construct (2 ^ 63 - 1) 1 (- 2 ^ 63 - 1) 2 (Float 0.8) (Float 0.3) (Int 0)
    (tape_of [])
  = (Raise OverflowError, tape_of []).
Proof. vm_compute. reflexivity. Qed.

(** * Horizontal neighbours on narrow boards *)

(** C10: at a position of a board whose grid has the declared shape,
    the lookup collects the entries of [collected] and returns the one
    whose index is the entropy entry reduced modulo their number.  On
    one column the left and the right entry are both the slot of the
    position itself, so a cell settled there is returned as its own
    neighbour; on two columns they are both the slot of the other
    column, which is thus collected twice. *)
Theorem horizontal_neighbours_wrap (b : Board) (row col : Z) :
  shape_ok b ->
  on_board (nb_rows b) (nb_cols b) (row, col) ->
  (forall g : Rng,
     collect_neighbours b row col g = (Ok (collected b row col), g)) /\
  (forall g,
     get_coral_neighbour b row col g
     = match collected b row col with
       | [] => (Ok None, g)
       | ns =>
           (Ok (ns !! Z.to_nat (Z.of_N (tape g (pos g))
                                mod Z.of_nat (length ns))),
            next g)
       end) /\
  (nb_cols b = 1 ->
     collected b row col
     = vertical b row col
       ++ option_list (slot (cells b) row col)
       ++ option_list (slot (cells b) row col)) /\
  (nb_cols b = 1 ->
     forall c g, slot (cells b) row col = Some c ->
       exists n, get_coral_neighbour b row col g = (Ok (Some n), next g) /\
                 n ∈ collected b row col) /\
  (nb_cols b = 2 ->
     collected b row col
     = vertical b row col
       ++ option_list (slot (cells b) row (1 - col))
       ++ option_list (slot (cells b) row (1 - col))).
Proof.
  intros Hshape Hpos. pose proof Hpos as [Hrow Hcol]. simpl in Hrow, Hcol.
  assert (Hone : nb_cols b = 1 ->
            collected b row col
            = vertical b row col
              ++ option_list (slot (cells b) row col)
              ++ option_list (slot (cells b) row col)).
  { intros H1. unfold collected, vertical. rewrite H1, !Z.mod_1_r.
    replace col with 0 by lia. rewrite <- app_assoc. reflexivity. }
  split; [intros g; apply (collect_neighbours_eq b row col g Hshape Hpos)|].
  split; [intros g; apply get_coral_neighbour_eq; assumption|].
  split; [exact Hone|]. split.
  - intros H1 c g Hc. rewrite get_coral_neighbour_eq by assumption.
    assert (Hlen : (2 <= length (collected b row col))%nat).
    { rewrite Hone, Hc by exact H1. rewrite !length_app. simpl. lia. }
    clear Hone. destruct (collected b row col) as [|x ns] eqn:Hns.
    + simpl in Hlen. lia.
    + destruct (choice_eq (x :: ns) g ltac:(discriminate)) as (n & Hn & _).
      cbv zeta. rewrite Hn. exists n. split; [reflexivity|].
      eapply list_elem_of_lookup_2; eauto.
  - intros H2. unfold collected, vertical. rewrite H2, <- app_assoc.
    assert (col = 0 \/ col = 1) as [->| ->] by lia; reflexivity.
Qed.

Lemma horizontal_neighbours_wrap_witness :
  Z.of_nat 1 = 1 /\ 0 <= 0 < 1 /\
  get_coral_neighbour
    (mkBoard 1 2 [[None; Some (mkCoralCell 300 0)]] 1 false [(0, 0); (0, 1)]
       2 80 0.475 0.5) 0 0 (tape_of [])
  = (Ok (Some (mkCoralCell 300 0)), next (tape_of [])).
Proof.
  split; [reflexivity|]. split; [lia|].
  destruct (horizontal_neighbours_wrap
              (mkBoard 1 2 [[None; Some (mkCoralCell 300 0)]] 1 false
                 [(0, 0); (0, 1)] 2 80 0.475 0.5) 0 0)
    as (_ & Hlookup & _).
  - split; [reflexivity|]. repeat constructor.
  - split; simpl; lia.
  - rewrite Hlookup. reflexivity.
Defined.

(** * The order of the updates within an advance *)

Lemma mapM_app {St A B} (f : A -> M St B) (xs ys : list A) (s : St) :
  mapM f (xs ++ ys) s
  = match mapM f xs s with
    | (Ok xs', s1) =>
        match mapM f ys s1 with
        | (Ok ys', s2) => (Ok (xs' ++ ys'), s2)
        | (Raise e, s2) => (Raise e, s2)
        end
    | (Raise e, s1) => (Raise e, s1)
    end.
Proof.
  revert s. induction xs as [|x xs IH]; intros s; simpl.
  - unfold ret. destruct (mapM f ys s) as [[ys'|e] s2]; reflexivity.
  - unfold bind. destruct (f x s) as [[y|e] s1]; [|reflexivity].
    rewrite IH.
    destruct (mapM f xs s1) as [[xs'|e] s2]; [|reflexivity].
    unfold ret. cbv beta iota.
    destruct (mapM f ys s2) as [[ys'|e] s3]; reflexivity.
Qed.

Lemma step_eq b g :
  step (b, g)
  = match drifter_steps (drifters b) (with_step_nb b (step_nb b + 1), g) with
    | (Ok ds, (b', g')) => (Ok tt, (with_drifters b' ds, g'))
    | (Raise e, w) => (Raise e, w)
    end.
Proof.
  unfold step. rewrite bind_update_self, bind_get_self. unfold bind.
  simpl drifters. fold (drifter_steps (drifters b)).
  destruct (drifter_steps (drifters b) _) as [[ds|e] [b' g']]; reflexivity.
Qed.

(** C3, amended: within an advance the drifters are updated one after
    the other, each in the state, grid and generator, that the updates
    of the drifters before it in the list have left: a cell written for
    an earlier drifter is seen by the neighbour lookup of a later
    one. *)
Theorem step_sequential (b : Board) (g : Rng)
    (pre post pre' : list (Z * Z)) (d : Z * Z) (b1 : Board) (g1 : Rng) :
  drifters b = pre ++ d :: post ->
  drifter_steps pre (with_step_nb b (step_nb b + 1), g) = (Ok pre', (b1, g1)) ->
  step (b, g)
  = match drifter_step (fst d) (snd d) (b1, g1) with
    | (Ok d', w2) =>
        match drifter_steps post w2 with
        | (Ok post', (b3, g3)) =>
            (Ok tt, (with_drifters b3 (pre' ++ d' :: post'), g3))
        | (Raise e, w3) => (Raise e, w3)
        end
    | (Raise e, w2) => (Raise e, w2)
    end.
Proof.
  intros Hds Hpre. rewrite step_eq, Hds. unfold drifter_steps in *.
  rewrite mapM_app, Hpre. simpl mapM. unfold bind at 1.
  destruct (drifter_step (fst d) (snd d) (b1, g1)) as [[d'|e] w2];
    [|reflexivity].
  unfold bind at 1.
  destruct (mapM _ post w2) as [[post'|e] [b3 g3]]; reflexivity.
Qed.

Lemma step_sequential_witness :
  exists w,
    step (mkBoard 1 2 [[None; None]] 0 false [(0, 0); (0, 1)] 2 80 0.475 0.5,
          tape_of [])
    = (Ok tt, w) /\
    done (fst w) = true /\
    slot (cells (fst w)) 0 1 = Some (mkCoralCell 298 1).
Proof.
  eexists.
  rewrite (step_sequential
             (mkBoard 1 2 [[None; None]] 0 false [(0, 0); (0, 1)] 2 80 0.475 0.5)
             (tape_of []) [(0, 0)] [] [(0, 0)] (0, 1)
             (mkBoard 1 2 [[Some (mkCoralCell 300 0); None]] 1 false
                [(0, 0); (0, 1)] 2 80 0.475 0.5)
             (next (next (tape_of []))) eq_refl eq_refl).
  split; [reflexivity|]. split; reflexivity.
Defined.

(** C3 as stated fails: on a board of one row and two columns whose
    drifters are at (0,0) and (0,1), the first update seeds at (0,0)
    and the second, run after it, finds that seed and settles, which
    sets [done]; against the grid as the advance found it the second
    drifter would seed as well and [done] would stay false. *)
Lemma later_drifter_sees_earlier_write :
  exists w w',
    step (mkBoard 1 2 [[None; None]] 0 false [(0, 0); (0, 1)] 2 80 0.475 0.5,
          tape_of [])
    = (Ok tt, w) /\
    step_snapshot
         (mkBoard 1 2 [[None; None]] 0 false [(0, 0); (0, 1)] 2 80 0.475 0.5,
          tape_of [])
    = (Ok tt, w') /\
    cells (fst w) = [[Some (mkCoralCell 300 0); Some (mkCoralCell 298 1)]] /\
    done (fst w) = true /\
    cells (fst w') = [[Some (mkCoralCell 300 0); Some (mkCoralCell 300 0)]] /\
    done (fst w') = false.
Proof.
  do 2 eexists. split; [reflexivity|]. split; [reflexivity|].
  repeat split; reflexivity.
Qed.

(** * The board of one cell *)

Lemma step_single b g d :
  drifters b = [d] ->
  step (b, g)
  = match drifter_step (fst d) (snd d) (with_step_nb b (step_nb b + 1), g) with
    | (Ok d', (b', g')) => (Ok tt, (with_drifters b' [d'], g'))
    | (Raise e, w) => (Raise e, w)
    end.
Proof.
  intros Hd. rewrite step_eq, Hd. unfold drifter_steps. simpl mapM.
  unfold bind.
  destruct (drifter_step (fst d) (snd d) _) as [[d'|e] [b' g']]; reflexivity.
Qed.

Lemma get_random_hue_eq g :
  get_random_hue g
  = (Ok ((-60 + Z.of_N (tape g (pos g)) mod 260) mod 360), next g).
Proof.
  unfold get_random_hue. erewrite bind_ok by (apply randrange_eq; lia).
  rewrite py_mod_eq by lia. reflexivity.
Qed.

(** The first advance of a 1 x 1 board seeds and leaves [done] unset. *)
Lemma one_by_one_first_advance hd pb db rb g :
  exists b0 g0 b1 g1 h,
    Board_init 1 1 hd pb db rb g = (Ok b0, g0) /\
    drifters b0 = [(0, 0)] /\
    step (b0, g0) = (Ok tt, (b1, g1)) /\
    nb_rows b1 = 1 /\ nb_cols b1 = 1 /\ hue_diff b1 = hd /\
    drifters b1 = [(0, 0)] /\
    cells b1 = [[Some (mkCoralCell h 0)]] /\
    0 <= h < 360 /\
    done b1 = false.
Proof.
  destruct (Board_init_eq 1 1 hd pb db rb g) as (ds & g0 & Hlen & Hds & Heq).
  simpl in Heq, Hlen.
  destruct ds as [|[r c] [|]]; try discriminate.
  apply Forall_inv in Hds. simpl in Hds.
  assert (r = 0) as -> by lia. assert (c = 0) as -> by lia.
  set (b0 := mkBoard 1 1 [[None]] 0 false [(0, 0)] hd _ _ _) in Heq.
  set (h := (-60 + Z.of_N (tape g0 (pos g0)) mod 260) mod 360).
  assert (Hh : 0 <= h < 360) by (apply Z.mod_pos_bound; lia).
  exists b0, g0,
    (with_drifters (seed (with_step_nb b0 1) 0 0 h) [(0, 0)]),
    (next (next g0)), h.
  split; [exact Heq|]. split; [reflexivity|]. split.
  - rewrite (step_single b0 g0 (0, 0)) by reflexivity. cbn [fst snd].
    rewrite drifter_step_eq;
      [|split; [reflexivity|repeat constructor]|split; simpl; lia].
    rewrite get_coral_neighbour_eq;
      [|split; [reflexivity|repeat constructor]|split; simpl; lia].
    change (collected (with_step_nb b0 (step_nb b0 + 1)) 0 0) with
      (@nil CoralCell).
    cbv beta iota. change (0 =? nb_rows _ - 1) with true. cbv iota.
    rewrite get_random_hue_eq. fold h.
    change (nb_cols (with_step_nb b0 (step_nb b0 + 1))) with 1.
    rewrite Z.mod_1_r. reflexivity.
  - repeat split; try reflexivity; apply Hh.
Qed.

(** C1, amended: the first advance of a 1 x 1 board seeds a root at
    (0,0), for which [done] is not set; the second advance finds that
    root as its own neighbour, settles at (0,0) and sets [done].  For a
    hue spread of at least 0, [done] is thus true after exactly two
    advances. *)
Theorem one_by_one_done_after_two_advances
    (hd : Z) (pb db rb : Q) (g : Rng) :
  0 <= hd ->
  exists b0 g0 b1 g1 h b2 g2,
    Board_init 1 1 hd pb db rb g = (Ok b0, g0) /\
    drifters b0 = [(0, 0)] /\
    step (b0, g0) = (Ok tt, (b1, g1)) /\
    cells b1 = [[Some (mkCoralCell h 0)]] /\
    0 <= h < 360 /\
    done b1 = false /\
    step (b1, g1) = (Ok tt, (b2, g2)) /\
    done b2 = true.
Proof.
  intros Hhd.
  destruct (one_by_one_first_advance hd pb db rb g)
    as (b0 & g0 & b1 & g1 & h & Hinit & Hd0 & Hstep & Er & Ec & Eh & Hd1 &
        Hcells & Hh & Hdone).
  set (b1' := with_step_nb b1 (step_nb b1 + 1)).
  assert (Hshape : shape_ok b1').
  { split; simpl; rewrite Hcells; [rewrite Er; reflexivity|].
    rewrite Ec. repeat constructor. }
  assert (Hpos : on_board (nb_rows b1') (nb_cols b1') (0, 0)).
  { split; simpl; lia. }
  assert (Hcol : collected b1' 0 0 = [mkCoralCell h 0; mkCoralCell h 0]).
  { unfold collected. simpl cells. simpl nb_rows. simpl nb_cols.
    rewrite Hcells, Er, Ec. reflexivity. }
  pose proof (wp_get_coral_neighbour b1' 0 0 g1
                (fun o _ => o = Some (mkCoralCell h 0)) never Hshape Hpos)
    as Hn.
  apply wp_never in Hn.
  - destruct Hn as (o & g1' & Hn & ->).
    pose proof (wp_get_child (mkCoralCell h 0) (hue_diff b1') (p_brightness b1')
                  g1' (fun _ _ => True) never (fun _ _ _ _ _ => I)) as Hc.
    apply wp_never in Hc; [|simpl; lia].
    destruct Hc as (child & g2 & Hc & _).
    exists b0, g0, b1, g1, h.
    exists (with_drifters (settle b1' 0 0 child)
              [(0, Z.of_N (tape g2 (pos g2)) mod nb_cols b1')]), (next g2).
    split; [exact Hinit|]. split; [exact Hd0|]. split; [exact Hstep|].
    split; [exact Hcells|]. split; [exact Hh|]. split; [exact Hdone|].
    split; [|simpl; apply orb_true_r].
    rewrite (step_single b1 g1 (0, 0)) by exact Hd1. cbn [fst snd].
    fold b1'. rewrite drifter_step_eq by assumption.
    rewrite Hn, Hc. reflexivity.
  - rewrite Hcol. discriminate.
  - rewrite Hcol. intros c Hc.
    apply elem_of_cons in Hc as [->|Hc]; [reflexivity|].
    apply list_elem_of_singleton in Hc as ->. reflexivity.
Qed.

Lemma one_by_one_done_after_two_advances_witness :
  0 <= 2 /\
  exists b0 g0 b1 g1 b2 g2,
    Board_init 1 1 2 0.8 0.3 0 (tape_of []) = (Ok b0, g0) /\
    step (b0, g0) = (Ok tt, (b1, g1)) /\ done b1 = false /\
    step (b1, g1) = (Ok tt, (b2, g2)) /\ done b2 = true.
Proof.
  split; [lia|].
  destruct (one_by_one_done_after_two_advances 2 0.8 0.3 0 (tape_of [])
              ltac:(lia))
    as (b0 & g0 & b1 & g1 & h & b2 & g2 & H0 & _ & H1 & _ & _ & Hd1 & H2 & Hd2).
  exists b0, g0, b1, g1, b2, g2. repeat split; assumption.
Defined.

(** C1 as stated fails: after the first advance of a 1 x 1 board the
    root is seeded and [done] is false. *)
Lemma one_by_one_not_done_after_one_advance :
  exists b0 g0 b1 g1,
    Board_init 1 1 2 0.8 0.3 0 (tape_of []) = (Ok b0, g0) /\
    step (b0, g0) = (Ok tt, (b1, g1)) /\
    cells b1 = [[Some (mkCoralCell 300 0)]] /\
    done b1 = false.
Proof.
  do 4 eexists. split; [reflexivity|]. split; [reflexivity|].
  split; reflexivity.
Qed.


(** * Further properties of the cell model and of the moves *)

(** [get_random_hue] never raises, makes one call to the generator and
    returns a hue outside the blue band [200, 300); every hue outside
    that band is returned from some generator state. *)
Theorem get_random_hue_non_blue :
  (forall g, exists h, get_random_hue g = (Ok h, next g) /\ non_blue h) /\
  (forall h, non_blue h -> exists g, get_random_hue g = (Ok h, next g)).
Proof.
  split.
  - intros g. eexists. split; [apply get_random_hue_eq|].
    pose proof (Z.mod_pos_bound (Z.of_N (tape g (pos g))) 260 ltac:(lia)).
    set (v := -60 + Z.of_N (tape g (pos g)) mod 260) in *.
    pose proof (Z.mod_pos_bound v 360 ltac:(lia)).
    pose proof (Z.div_mod v 360 ltac:(lia)).
    unfold non_blue. lia.
  - intros h Hh.
    set (v := if h <? 200 then h else h - 360).
    assert (Hv : -60 <= v < 200 /\ v mod 360 = h).
    { unfold non_blue in Hh. subst v. destruct (Z.ltb_spec h 200).
      - split; [lia|]. apply Z.mod_small. lia.
      - split; [lia|].
        replace (h - 360) with (h + (-1) * 360) by lia.
        rewrite Z.mod_add by lia. apply Z.mod_small. lia. }
    destruct Hv as [Hv Hm].
    exists (tape_of [Z.to_N (v - -60)]). unfold get_random_hue.
    erewrite bind_ok by (apply randrange_onto; lia).
    rewrite py_mod_eq by lia. rewrite Hm. reflexivity.
Qed.

Lemma get_random_hue_non_blue_witness :
  non_blue 310 /\
  exists g, get_random_hue g = (Ok 310, next g).
Proof.
  split; [right; lia|].
  apply (proj2 get_random_hue_non_blue 310). right. lia.
Defined.

(** [make_drifter] returns a position of row 0 in a column of the board
    when the board has a column, and raises [ValueError], the generator
    untouched, when [nb_cols <= 0]. *)
Theorem make_drifter_top_row_or_error (nc : Z) (g : Rng) :
  if 0 <? nc then
    exists c, make_drifter nc g = (Ok (0, c), next g) /\ 0 <= c < nc
  else make_drifter nc g = (Raise ValueError, g).
Proof.
  destruct (Z.ltb_spec 0 nc) as [Hnc|Hnc].
  - eexists. split; [apply make_drifter_eq; lia|].
    apply Z.mod_pos_bound. lia.
  - unfold make_drifter, randrange1, bind.
    destruct (Z.ltb_spec 0 nc); [lia|reflexivity].
Qed.

(** The value of [get_child] for a spread that is not negative. *)
Lemma get_child_eq parent hd pb g :
  0 <= hd ->
  get_child parent hd pb g
  = (Ok (mkCoralCell
           ((hue parent
             + (- hd + Z.of_N (tape g (pos g)) mod (2 * hd + 1))) mod 360)
           (if (brightness parent <? 100) && Qltb (draw (next g)) pb
            then brightness parent + 1 else brightness parent)),
     if brightness parent <? 100 then next (next g) else next g).
Proof.
  intros Hhd. unfold get_child.
  erewrite bind_ok by (apply randrange_eq; lia).
  replace (hd + 1 - - hd) with (2 * hd + 1) by lia.
  erewrite bind_ok by (apply py_mod_eq; lia).
  destruct (brightness parent <? 100); [|reflexivity].
  destruct (Qltb (draw (next g)) pb) eqn:Hu;
    (erewrite bind_ok
       by (erewrite bind_ok by apply random_eq; fold (draw (next g));
           rewrite Hu; reflexivity));
    reflexivity.
Qed.

Lemma draw_unit_interval g : (0 <= draw g)%Q /\ (draw g < 1)%Q.
Proof. apply (random_unit_interval g _ _ (random_eq g)). Qed.

(** [get_child] raises exactly for a negative spread: [ValueError], and
    the generator is untouched. *)
Theorem get_child_raises_iff_negative_spread
    (parent : CoralCell) (hd : Z) (pb : Q) (g : Rng) :
  if hd <? 0 then get_child parent hd pb g = (Raise ValueError, g)
  else exists child g', get_child parent hd pb g = (Ok child, g').
Proof.
  destruct (Z.ltb_spec hd 0) as [Hneg|Hpos].
  - unfold get_child. unfold bind.
    rewrite randrange_empty by lia. reflexivity.
  - rewrite get_child_eq by lia. eauto.
Qed.

(** With a spread of 0 the child of a cell whose hue is in [0, 360) has
    the hue of its parent. *)
Theorem get_child_zero_spread_keeps_hue
    (parent : CoralCell) (pb : Q) (g : Rng) :
  0 <= hue parent < 360 ->
  exists child g',
    get_child parent 0 pb g = (Ok child, g') /\ hue child = hue parent.
Proof.
  intros Hh. rewrite get_child_eq by lia. do 2 eexists.
  split; [reflexivity|]. simpl hue.
  rewrite Z.mod_1_r. rewrite Z.add_0_r. apply Z.mod_small. exact Hh.
Qed.

Lemma get_child_zero_spread_keeps_hue_witness :
  0 <= 300 < 360 /\
  exists child g',
    get_child (mkCoralCell 300 7) 0 0.5 (tape_of [9]%N) = (Ok child, g') /\
    hue child = 300.
Proof.
  split; [lia|].
  apply (get_child_zero_spread_keeps_hue (mkCoralCell 300 7) 0.5
           (tape_of [9]%N)). simpl. lia.
Defined.

(** For a spread that is not negative, a brightening probability of at
    least 1 always brightens a cell below 100, and one of at most 0
    never brightens. *)
Theorem get_child_extreme_probability
    (parent : CoralCell) (hd : Z) (pb : Q) (g : Rng) :
  0 <= hd ->
  exists child g',
    get_child parent hd pb g = (Ok child, g') /\
    ((1 <= pb)%Q -> brightness parent < 100 ->
       brightness child = brightness parent + 1) /\
    ((pb <= 0)%Q -> brightness child = brightness parent).
Proof.
  intros Hhd. rewrite get_child_eq by lia. do 2 eexists.
  split; [reflexivity|]. simpl brightness.
  destruct (draw_unit_interval (next g)) as [H0 H1]. split.
  - intros Hpb Hlt. destruct (Z.ltb_spec (brightness parent) 100); [|lia].
    assert (Hu : Qltb (draw (next g)) pb = true).
    { apply Qltb_lt. eapply Qlt_le_trans; eassumption. }
    rewrite Hu. reflexivity.
  - intros Hpb.
    assert (Hu : Qltb (draw (next g)) pb = false).
    { apply Qltb_nlt. intros Hlt.
      apply (Qlt_irrefl 0). eapply Qle_lt_trans; [exact H0|].
      eapply Qlt_le_trans; eassumption. }
    rewrite Hu, andb_false_r. reflexivity.
Qed.

Lemma get_child_extreme_probability_witness :
  0 <= 2 /\ (1 <= 40)%Q /\
  exists child g',
    get_child (mkCoralCell 10 5) 2 40 (tape_of []) = (Ok child, g') /\
    brightness child = 6.
Proof.
  split; [lia|]. split; [discriminate|].
  destruct (get_child_extreme_probability (mkCoralCell 10 5) 2 40 (tape_of [])
              ltac:(lia)) as (child & g' & Heq & Hup & _).
  exists child, g'. split; [exact Heq|].
  apply Hup; [discriminate|simpl; lia].
Defined.

(** The value of [drift] on a board that has a column. *)
Lemma drift_eq b row col g :
  nb_cols b <> 0 ->
  drift b row col g
  = if (row <? nb_rows b - 1) && Qltb (draw g) (p_down b)
    then (Ok (row + 1, col), next g)
    else
      let g1 := if row <? nb_rows b - 1 then next g else g in
      if (0 <? row) && Qltb (draw g1) p_up
      then (Ok (row - 1, col), next g1)
      else
        let g2 := if 0 <? row then next g1 else g1 in
        (Ok (row,
             (if Qltb (draw g2) (p_right b) then col + 1 else col - 1)
             mod nb_cols b),
         next g2).
Proof.
  intros Hnc. unfold drift, py_mod.
  destruct (Z.eqb_spec (nb_cols b) 0); [lia|].
  destruct (row <? nb_rows b - 1), (0 <? row);
    unfold bind, random, bind, next_raw, ret, draw; cbn;
    repeat match goal with
           | |- context [Qltb ?u ?p] => destruct (Qltb u p); cbn
           end;
    reflexivity.
Qed.

(** At a position of the board [drift] never raises, makes between one
    and three calls to the generator and returns a position of the
    board that is the one below, the one above, or the one to the right
    or to the left on the cylinder; it does not go below the last row
    or above row 0. *)
Theorem drift_moves_to_adjacent (b : Board) (row col : Z) (g : Rng) :
  on_board (nb_rows b) (nb_cols b) (row, col) ->
  exists d g',
    drift b row col g = (Ok d, g') /\
    on_board (nb_rows b) (nb_cols b) d /\
    (d = (row + 1, col) \/ d = (row - 1, col) \/
     d = (row, (col + 1) mod nb_cols b) \/
     d = (row, (col - 1) mod nb_cols b)) /\
    tape g' = tape g /\ (pos g < pos g' <= pos g + 3)%nat.
Proof.
  intros [Hrow Hcol]. simpl in Hrow, Hcol.
  rewrite drift_eq by lia.
  pose proof (Z.mod_pos_bound (col + 1) (nb_cols b) ltac:(lia)).
  pose proof (Z.mod_pos_bound (col - 1) (nb_cols b) ltac:(lia)).
  destruct (Z.ltb_spec row (nb_rows b - 1)), (Z.ltb_spec 0 row); cbn zeta;
    repeat match goal with
           | |- context [Qltb ?u ?p] => destruct (Qltb u p)
           end;
    cbn [andb]; do 2 eexists; (split; [reflexivity|]);
    (split; [split; simpl; lia|]); (split; [tauto|]);
    simpl; (split; [reflexivity|lia]).
Qed.

Lemma drift_moves_to_adjacent_witness :
  on_board 2 3 (1, 0) /\
  exists d g',
    drift (mkBoard 2 3 [[None; None; None]; [None; None; None]] 0 false
             [(1, 0)] 2 0.4 0.475 0.5) 1 0
          (tape_of [9007199254740991; 9007199254740991]%N)
    = (Ok d, g') /\
    d = (1, 2).
Proof.
  split; [split; simpl; lia|].
  destruct (drift_moves_to_adjacent
              (mkBoard 2 3 [[None; None; None]; [None; None; None]] 0 false
                 [(1, 0)] 2 0.4 0.475 0.5) 1 0
              (tape_of [9007199254740991; 9007199254740991]%N))
    as (d & g' & Heq & _); [split; simpl; lia|].
  exists d, g'. split; [exact Heq|].
  vm_compute in Heq. injection Heq as <- _. reflexivity.
Defined.

(** With a downward probability of at least 1, a drifter that is not
    on the last row always moves down, on one call to the generator. *)
Theorem drift_certain_down (b : Board) (row col : Z) (g : Rng) :
  (1 <= p_down b)%Q ->
  row < nb_rows b - 1 ->
  drift b row col g = (Ok (row + 1, col), next g).
Proof.
  intros Hp Hrow. unfold drift.
  destruct (Z.ltb_spec row (nb_rows b - 1)); [|lia].
  assert (Hu : Qltb (draw g) (p_down b) = true).
  { apply Qltb_lt. eapply Qlt_le_trans; [apply draw_unit_interval|exact Hp]. }
  erewrite bind_ok
    by (erewrite bind_ok by apply random_eq; fold (draw g); rewrite Hu;
        reflexivity).
  reflexivity.
Qed.

Lemma drift_certain_down_witness :
  (1 <= 1)%Q /\ 0 < 2 - 1 /\
  drift (mkBoard 2 3 [[None; None; None]; [None; None; None]] 0 false
           [(0, 1)] 2 0.4 1 0.5) 0 1 (tape_of [77]%N)
  = (Ok (1, 1), next (tape_of [77]%N)).
Proof.
  split; [discriminate|]. split; [lia|].
  apply drift_certain_down; [discriminate|simpl; lia].
Defined.

(** On a board that has a column, a rightward probability of at least 1
    excludes the move to the left and one of at most 0 excludes the
    move to the right. *)
Theorem drift_one_sided (b : Board) (row col : Z) (g : Rng) :
  nb_cols b <> 0 ->
  exists d g',
    drift b row col g = (Ok d, g') /\
    ((1 <= p_right b)%Q ->
       d = (row + 1, col) \/ d = (row - 1, col) \/
       d = (row, (col + 1) mod nb_cols b)) /\
    ((p_right b <= 0)%Q ->
       d = (row + 1, col) \/ d = (row - 1, col) \/
       d = (row, (col - 1) mod nb_cols b)).
Proof.
  intros Hnc. rewrite drift_eq by exact Hnc.
  destruct ((row <? nb_rows b - 1) && Qltb (draw g) (p_down b));
    [do 2 eexists; split; [reflexivity|]; split; intros; tauto|].
  cbn zeta. set (g1 := if row <? nb_rows b - 1 then next g else g).
  destruct ((0 <? row) && Qltb (draw g1) p_up);
    [do 2 eexists; split; [reflexivity|]; split; intros; tauto|].
  set (g2 := if 0 <? row then next g1 else g1).
  destruct (draw_unit_interval g2) as [H0 H1].
  do 2 eexists. split; [reflexivity|]. split; intros Hp.
  - assert (Hu : Qltb (draw g2) (p_right b) = true).
    { apply Qltb_lt. eapply Qlt_le_trans; eassumption. }
    rewrite Hu. tauto.
  - assert (Hu : Qltb (draw g2) (p_right b) = false).
    { apply Qltb_nlt. intros Hlt.
      apply (Qlt_irrefl 0). eapply Qle_lt_trans; [exact H0|].
      eapply Qlt_le_trans; eassumption. }
    rewrite Hu. tauto.
Qed.

Lemma drift_one_sided_witness :
  3 <> 0 /\ (0 <= 0)%Q /\
  exists d g',
    drift (mkBoard 1 3 [[None; None; None]] 0 false [(0, 0)] 2 0.4 0.475 0)
          0 0 (tape_of [5]%N)
    = (Ok d, g') /\
    d = (0, 2).
Proof.
  split; [lia|]. split; [discriminate|].
  destruct (drift_one_sided
              (mkBoard 1 3 [[None; None; None]] 0 false [(0, 0)] 2 0.4 0.475 0)
              0 0 (tape_of [5]%N)) as (d & g' & Heq & _ & Hleft);
    [simpl; lia|].
  exists d, g'. split; [exact Heq|].
  destruct (Hleft ltac:(discriminate)) as [-> | [-> | ->]].
  - vm_compute in Heq. discriminate.
  - vm_compute in Heq. discriminate.
  - reflexivity.
Defined.

(** * Further properties of the neighbour lookup *)

(** At a position of a board whose grid has the declared shape, the
    neighbour lookup never raises.  When it returns a cell, that cell
    is held by the slot above (for [row > 0]), the slot below (for a
    row before the last), or the slot to the left or to the right on
    the cylinder, and one call to the generator was made.  When it
    returns nothing, all those slots are empty and the generator is
    untouched.  Rows do not wrap. *)
Theorem neighbour_is_adjacent (b : Board) (row col : Z) (g : Rng) :
  shape_ok b ->
  on_board (nb_rows b) (nb_cols b) (row, col) ->
  match get_coral_neighbour b row col g with
  | (Ok (Some n), g') =>
      g' = next g /\
      ((0 < row /\ slot (cells b) (row - 1) col = Some n) \/
       (row < nb_rows b - 1 /\ slot (cells b) (row + 1) col = Some n) \/
       slot (cells b) row ((col - 1) mod nb_cols b) = Some n \/
       slot (cells b) row ((col + 1) mod nb_cols b) = Some n)
  | (Ok None, g') =>
      g' = g /\
      (0 < row -> slot (cells b) (row - 1) col = None) /\
      (row < nb_rows b - 1 -> slot (cells b) (row + 1) col = None) /\
      slot (cells b) row ((col - 1) mod nb_cols b) = None /\
      slot (cells b) row ((col + 1) mod nb_cols b) = None
  | (Raise _, _) => False
  end.
Proof.
  intros Hshape Hpos. rewrite get_coral_neighbour_eq by assumption.
  destruct (collected b row col) as [|c ns] eqn:Hns.
  - split; [reflexivity|]. unfold collected in Hns.
    apply app_eq_nil in Hns as [Ha Hns].
    apply app_eq_nil in Hns as [Hb Hns].
    apply app_eq_nil in Hns as [Hl Hr].
    repeat split.
    + intros H. destruct (Z.ltb_spec 0 row); [|lia].
      destruct (slot (cells b) (row - 1) col); [discriminate|reflexivity].
    + intros H. destruct (Z.ltb_spec row (nb_rows b - 1)); [|lia].
      destruct (slot (cells b) (row + 1) col); [discriminate|reflexivity].
    + destruct (slot (cells b) row ((col - 1) mod nb_cols b));
        [discriminate|reflexivity].
    + destruct (slot (cells b) row ((col + 1) mod nb_cols b));
        [discriminate|reflexivity].
  - destruct (choice_eq (c :: ns) g ltac:(discriminate)) as (x & Hx & _).
    cbv zeta. rewrite Hx. split; [reflexivity|].
    apply list_elem_of_lookup_2 in Hx. rewrite <- Hns in Hx.
    unfold collected in Hx.
    rewrite !elem_of_app, !elem_of_option_list in Hx.
    destruct Hx as [H|[H|[H|H]]].
    + destruct (Z.ltb_spec 0 row); [|discriminate]. auto.
    + destruct (Z.ltb_spec row (nb_rows b - 1)); [|discriminate]. auto.
    + auto.
    + auto.
Qed.

Lemma neighbour_is_adjacent_witness :
  on_board 2 3 (0, 0) /\
  get_coral_neighbour
    (mkBoard 2 3 [[None; None; Some (mkCoralCell 40 3)]; [None; None; None]]
       0 false [(0, 0)] 2 0.4 0.475 0.5) 0 0 (tape_of [])
  = (Ok (Some (mkCoralCell 40 3)), next (tape_of [])).
Proof.
  split; [split; simpl; lia|].
  pose proof (neighbour_is_adjacent
                (mkBoard 2 3
                   [[None; None; Some (mkCoralCell 40 3)]; [None; None; None]]
                   0 false [(0, 0)] 2 0.4 0.475 0.5) 0 0 (tape_of [])) as H.
  destruct (get_coral_neighbour _ 0 0 (tape_of [])) as [[[n|]|e] g'] eqn:Heq.
  - destruct H as [-> _];
      [split; [reflexivity|repeat constructor]|split; simpl; lia|].
    vm_compute in Heq. injection Heq as <-. reflexivity.
  - vm_compute in Heq. discriminate.
  - vm_compute in Heq. discriminate.
Defined.

(** * What an advance never undoes *)

Lemma wp_and {St A} (m : M St A) (s : St)
    (Q1 Q2 : A -> St -> Prop) (E1 E2 : exn -> St -> Prop) :
  wp m s Q1 E1 -> wp m s Q2 E2 ->
  wp m s (fun a s' => Q1 a s' /\ Q2 a s') (fun e s' => E1 e s' /\ E2 e s').
Proof. unfold wp. destruct (m s) as [[a|e] s']; auto. Qed.

Lemma wp_of_eq {St A} (m : M St A) (s : St)
    (Q : A -> St -> Prop) (E : exn -> St -> Prop) :
  (forall r s', m s = (r, s') ->
     match r with Ok a => Q a s' | Raise e => E e s' end) ->
  wp m s Q E.
Proof.
  intros H. unfold wp. specialize (H (fst (m s)) (snd (m s))).
  destruct (m s) as [[a|e] s']; apply H; reflexivity.
Qed.

Lemma get_child_negative parent hd pb g :
  hd < 0 -> get_child parent hd pb g = (Raise ValueError, g).
Proof.
  intros Hneg. unfold get_child, bind.
  rewrite randrange_empty by lia. reflexivity.
Qed.

Lemma occupied_grid_set (g : grid) row col v r c :
  occupied g r c -> occupied (grid_set g row col v) r c.
Proof.
  unfold occupied, slot, grid_set. rewrite list_lookup_alter.
  destruct (g !! Z.to_nat r) as [r0|] eqn:Hr0; [|intros [? [=]]].
  case_decide as Hrow.
  - rewrite Hrow. rewrite Hr0. simpl. rewrite list_lookup_insert.
    case_decide; [intros _; eexists; reflexivity|tauto].
  - tauto.
Qed.

Lemma grows_refl b : grows b b.
Proof. split; auto. Qed.

Lemma grows_trans b1 b2 b3 : grows b1 b2 -> grows b2 b3 -> grows b1 b3.
Proof. intros [H1 H2] [H3 H4]. split; auto. Qed.

(** What one drifter update does to [done] and to the slots, and how it
    can raise. *)
Lemma drifter_step_facts b g row col r b' g' :
  shape_ok b ->
  on_board (nb_rows b) (nb_cols b) (row, col) ->
  drifter_step row col (b, g) = (r, (b', g')) ->
  grows b b' /\
  (done b' = true ->
     done b = true \/ (row = 0 /\ occupied (cells b') 0 col)) /\
  match r with
  | Ok _ => True
  | Raise e => e = ValueError /\ hue_diff b < 0 /\ b' = b
  end.
Proof.
  intros Hshape Hpos Hstep. pose proof Hpos as [Hrow Hcol].
  simpl in Hrow, Hcol.
  destruct (shape_row b row Hshape Hrow) as (r0 & Hr0 & Hlen).
  rewrite drifter_step_eq in Hstep by assumption.
  pose proof (wp_get_coral_neighbour b row col g (fun _ _ => True) never
                Hshape Hpos (fun _ => I) (fun _ _ => I)) as Hn.
  apply wp_never in Hn. destruct Hn as (o & g1 & Hn & _).
  rewrite Hn in Hstep. destruct o as [n|].
  - destruct (Z.ltb_spec (hue_diff b) 0) as [Hneg|Hnn].
    + rewrite get_child_negative in Hstep by exact Hneg.
      injection Hstep as <- <- <-.
      split; [apply grows_refl|]. split; [auto|]. auto.
    + rewrite get_child_eq in Hstep by exact Hnn.
      injection Hstep as <- <- <-.
      set (child := mkCoralCell _ _). split; [|split; [|exact I]].
      * split; simpl.
        -- intros ->. reflexivity.
        -- intros r c. apply occupied_grid_set.
      * simpl. rewrite orb_true_iff, Z.eqb_eq.
        intros [Hd| ->]; [left; exact Hd|right].
        split; [reflexivity|]. unfold occupied.
        erewrite slot_grid_set; eauto; lia.
  - destruct (row =? nb_rows b - 1).
    + rewrite get_random_hue_eq in Hstep. injection Hstep as <- <- <-.
      split; [|split; [|exact I]].
      * split; simpl; [auto|]. intros r c. apply occupied_grid_set.
      * simpl. auto.
    + pose proof (wp_drift b row col g1 (fun _ _ => True) never Hpos
                    (fun _ _ _ => I)) as Hd.
      apply wp_never in Hd. destruct Hd as (d & g2 & Hd & _).
      rewrite Hd in Hstep. injection Hstep as <- <- <-.
      split; [apply grows_refl|]. split; [auto|exact I].
Qed.

Lemma top_reached_step b b' row col :
  nb_cols b' = nb_cols b ->
  0 <= col < nb_cols b ->
  grows b b' ->
  (done b' = true ->
     done b = true \/ (row = 0 /\ occupied (cells b') 0 col)) ->
  top_reached b -> top_reached b'.
Proof.
  intros Ec Hcol [_ Hocc] Hdone Htop Hd.
  destruct (Hdone Hd) as [Hd0|[_ Ho]].
  - destruct (Htop Hd0) as (c & Hc & Ho). exists c. split; [lia|auto].
  - exists col. split; [lia|exact Ho].
Qed.

Lemma wp_drifter_step_facts b0 b g row col :
  0 < nb_rows b0 -> 0 < nb_cols b0 ->
  within_step b0 b /\ grows b0 b /\ (top_reached b0 -> top_reached b) ->
  on_board (nb_rows b0) (nb_cols b0) (row, col) ->
  wp (drifter_step row col) (b, g)
     (fun d w =>
        on_board (nb_rows b0) (nb_cols b0) d /\
        (within_step b0 (fst w) /\ grows b0 (fst w) /\
         (top_reached b0 -> top_reached (fst w))))
     (fun e w =>
        (e = ValueError /\ hue_diff b0 < 0) /\
        (within_step b0 (fst w) /\ grows b0 (fst w) /\
         (top_reached b0 -> top_reached (fst w)))).
Proof.
  intros Hnr Hnc (Hw & Hg & Ht) Hpos. apply wp_of_eq.
  intros r [b' g'] Heq.
  pose proof (wp_eq _ _ _ _ _ _
                (wp_drifter_step b0 b g row col Hnr Hnc Hw Hpos) Heq) as H1.
  pose proof Hw as ((Er & Ec & Eh & _) & _ & _ & Hshape & _).
  assert (Hpos' : on_board (nb_rows b) (nb_cols b) (row, col))
    by (rewrite Er, Ec; exact Hpos).
  destruct (drifter_step_facts b g row col r b' g' Hshape Hpos' Heq)
    as (Hg' & Hd' & Hr).
  assert (Hw' : within_step b0 b') by (destruct r; simpl in H1; apply H1).
  assert (HJ : within_step b0 b' /\ grows b0 b' /\
               (top_reached b0 -> top_reached b')).
  { split; [exact Hw'|]. split; [eapply grows_trans; eassumption|].
    intros Ht0. pose proof Hw' as ((_ & Ec' & _) & _).
    apply (top_reached_step b b' row col); auto; [congruence|].
    destruct Hpos' as [_ Hc]. exact Hc. }
  destruct r as [d|e]; simpl in *.
  - split; [apply H1|exact HJ].
  - destruct Hr as (-> & Hneg & _). split; [|exact HJ].
    split; [reflexivity|lia].
Qed.

(** What one advance of a board that satisfies the invariant does. *)
Lemma step_facts b g r b' g' :
  inv b ->
  step (b, g) = (r, (b', g')) ->
  inv b' /\ same_params b b' /\ step_nb b' = step_nb b + 1 /\
  grows b b' /\ (top_reached b -> top_reached b') /\
  match r with
  | Ok _ => length (drifters b') = length (drifters b)
  | Raise e => e = ValueError /\ hue_diff b < 0 /\ drifters b' = drifters b
  end.
Proof.
  intros Hinv Hstep. pose proof Hinv as [Hnr Hnc Hshape Hgrid Hds].
  pose proof (wp_eq _ _ _ _ _ _ (wp_step b g Hinv) Hstep) as H1.
  rewrite step_eq in Hstep.
  set (b1 := with_step_nb b (step_nb b + 1)) in *.
  assert (HJ : within_step b1 b1 /\ grows b1 b1 /\
               (top_reached b1 -> top_reached b1)).
  { split; [apply within_step_refl; assumption|].
    split; [apply grows_refl|auto]. }
  assert (Hm : wp (drifter_steps (drifters b)) (b1, g)
                 (fun ds w =>
                    length ds = length (drifters b) /\
                    Forall (on_board (nb_rows b1) (nb_cols b1)) ds /\
                    (within_step b1 (fst w) /\ grows b1 (fst w) /\
                     (top_reached b1 -> top_reached (fst w))))
                 (fun e w =>
                    (e = ValueError /\ hue_diff b1 < 0) /\
                    (within_step b1 (fst w) /\ grows b1 (fst w) /\
                     (top_reached b1 -> top_reached (fst w))))).
  { unfold drifter_steps.
    apply (wp_mapM (fun d => drifter_step (fst d) (snd d))
             (fun w => within_step b1 (fst w) /\ grows b1 (fst w) /\
                       (top_reached b1 -> top_reached (fst w)))
             (on_board (nb_rows b1) (nb_cols b1))
             (on_board (nb_rows b1) (nb_cols b1))); [exact Hds| |exact HJ].
    intros [row col] [b2 g2] Hd HI.
    apply wp_drifter_step_facts; assumption. }
  unfold wp, drifter_steps in *.
  destruct (mapM (fun d => drifter_step (fst d) (snd d)) (drifters b) (b1, g))
    as [[ds|e] [b2 g2]].
  - injection Hstep as <- <- <-. simpl in H1, Hm.
    destruct H1 as (Hinv' & Hp & Hsn & Hlen).
    destruct Hm as (_ & _ & _ & [Hdn Hocc] & Htop).
    split; [exact Hinv'|]. split; [exact Hp|]. split; [exact Hsn|].
    split; [split; [apply Hdn|apply Hocc]|]. split; [|exact Hlen].
    intros Ht Hd. destruct (Htop Ht Hd) as (c & Hc & Ho). exists c. auto.
  - injection Hstep as <- <- <-. simpl in H1, Hm.
    destruct H1 as (_ & Hinv' & Hp & Eds).
    destruct Hm as ((-> & Hneg) & (_ & _ & Esn & _) & [Hdn Hocc] & Htop).
    split; [exact Hinv'|]. split; [exact Hp|]. split; [exact Esn|].
    split; [split; [apply Hdn|apply Hocc]|]. split; [exact Htop|].
    auto.
Qed.

Lemma advances_facts b0 b :
  inv b0 -> advances b0 b ->
  inv b /\ same_params b0 b /\ grows b0 b /\
  (top_reached b0 -> top_reached b) /\ step_nb b0 <= step_nb b.
Proof.
  intros Hinv Hadv. induction Hadv as [|b g r b' g' _ IH Hstep].
  - split; [exact Hinv|]. split; [repeat split|].
    split; [apply grows_refl|]. split; [auto|lia].
  - destruct IH as (Hb & Hp & Hg & Ht & Hle).
    destruct (step_facts b g r b' g' Hb Hstep)
      as (Hb' & Hp' & Hsn & Hg' & Ht' & _).
    split; [exact Hb'|]. split; [eapply same_params_trans; eauto|].
    split; [eapply grows_trans; eauto|]. split; [auto|lia].
Qed.

(** An advance of a board that satisfies the invariant counts itself,
    also when it raises; it assigns no parameter; it can only raise
    [ValueError], for a negative hue spread, and then the list of
    drifters is the one it began with. *)
Theorem step_counts_and_raises_only_for_negative_spread
    (b : Board) (g : Rng) (r : result unit) (b' : Board) (g' : Rng) :
  inv b ->
  step (b, g) = (r, (b', g')) ->
  step_nb b' = step_nb b + 1 /\
  same_params b b' /\
  match r with
  | Ok _ => length (drifters b') = length (drifters b)
  | Raise e => e = ValueError /\ hue_diff b < 0 /\ drifters b' = drifters b
  end.
Proof.
  intros Hinv Hstep.
  destruct (step_facts b g r b' g' Hinv Hstep) as (_ & Hp & Hsn & _ & _ & Hr).
  auto.
Qed.

(** No sequence of advances of a board that satisfies the invariant
    unsets [done] or empties a slot of the grid. *)
Theorem advances_never_undo (b0 b : Board) :
  inv b0 -> advances b0 b ->
  (done b0 = true -> done b = true) /\
  (forall row col,
     occupied (cells b0) row col -> occupied (cells b) row col).
Proof.
  intros Hinv Hadv.
  destruct (advances_facts b0 b Hinv Hadv) as (_ & _ & Hg & _). exact Hg.
Qed.

(** On a board constructed with positive dimensions, whenever [done] is
    set after some advances, a cell is settled on row 0. *)
Theorem done_means_top_row_reached (nr nc hd : Z) (pb db rb : Q)
    (g g0 : Rng) (b0 b : Board) :
  0 < nr -> 0 < nc ->
  Board_init nr nc hd pb db rb g = (Ok b0, g0) ->
  advances b0 b ->
  done b = true ->
  exists col, 0 <= col < nc /\ occupied (cells b) 0 col.
Proof.
  intros Hnr Hnc Hinit Hadv Hdone.
  destruct (Board_init_inv nr nc hd pb db rb g Hnr Hnc)
    as (b0' & g0' & Hinit' & Hinv & _ & Ec & _ & _ & _ & Hd0 & _).
  rewrite Hinit in Hinit'. injection Hinit' as <- <-.
  destruct (advances_facts b0 b Hinv Hadv) as (_ & (_ & Ec' & _) & _ & Ht & _).
  destruct (Ht ltac:(intros H; congruence) Hdone) as (c & Hc & Ho).
  exists c. split; [lia|exact Ho].
Qed.

Lemma seeded_one_by_one_inv hd :
  inv (mkBoard 1 1 [[Some (mkCoralCell 300 0)]] 1 false [(0, 0)] hd
         80 0.475 0.5).
Proof.
  constructor; simpl; try lia.
  - split; [reflexivity|repeat constructor].
  - intros n m c (r & Hr & Hc).
    destruct n as [|n]; [|destruct n; discriminate].
    injection Hr as <-.
    destruct m as [|m]; [|destruct m; discriminate].
    injection Hc as <-. split; simpl; lia.
  - repeat constructor; simpl; lia.
Qed.

Lemma step_counts_and_raises_only_for_negative_spread_witness :
  exists w,
    step (mkBoard 1 1 [[Some (mkCoralCell 300 0)]] 1 false [(0, 0)] (-1)
            80 0.475 0.5, tape_of [])
    = (Raise ValueError, w) /\
    step_nb (fst w) = 2 /\ drifters (fst w) = [(0, 0)].
Proof.
  eexists. split; [reflexivity|].
  destruct (step_counts_and_raises_only_for_negative_spread
              (mkBoard 1 1 [[Some (mkCoralCell 300 0)]] 1 false [(0, 0)] (-1)
                 80 0.475 0.5) (tape_of []) (Raise ValueError) _ _
              (seeded_one_by_one_inv (-1)) eq_refl) as (Hsn & _ & _ & _ & Hds).
  split; [exact Hsn|exact Hds].
Defined.

Lemma advances_never_undo_witness :
  exists w,
    step (mkBoard 1 1 [[Some (mkCoralCell 300 0)]] 1 false [(0, 0)] 2
            80 0.475 0.5, tape_of [])
    = (Ok tt, w) /\
    occupied (cells (fst w)) 0 0.
Proof.
  eexists. split; [reflexivity|].
  refine (proj2 (advances_never_undo
                   (mkBoard 1 1 [[Some (mkCoralCell 300 0)]] 1 false [(0, 0)]
                      2 80 0.475 0.5) _ (seeded_one_by_one_inv 2) _) 0 0 _).
  - eapply (advances_step _ _ (tape_of [])); [apply advances_none|].
    reflexivity.
  - eexists. reflexivity.
Defined.

Lemma done_means_top_row_reached_witness :
  0 < 1 /\
  exists b0 g0 b1 g1 b2 g2,
    Board_init 1 1 2 0.8 0.3 0 (tape_of []) = (Ok b0, g0) /\
    step (b0, g0) = (Ok tt, (b1, g1)) /\
    step (b1, g1) = (Ok tt, (b2, g2)) /\
    done b2 = true /\
    exists col, 0 <= col < 1 /\ occupied (cells b2) 0 col.
Proof.
  split; [lia|].
  destruct (Board_init 1 1 2 0.8 0.3 0 (tape_of [])) as [[b0|e0] g0] eqn:H0;
    [|vm_compute in H0; discriminate].
  destruct (step (b0, g0)) as [[[]|e1] [b1 g1]] eqn:H1;
    [|vm_compute in H0; injection H0 as <- <-; vm_compute in H1; discriminate].
  destruct (step (b1, g1)) as [[[]|e2] [b2 g2]] eqn:H2;
    [|vm_compute in H0; injection H0 as <- <-;
      vm_compute in H1; injection H1 as <- <-;
      vm_compute in H2; discriminate].
  assert (Hd : done b2 = true).
  { vm_compute in H0. injection H0 as <- <-.
    vm_compute in H1. injection H1 as <- <-.
    vm_compute in H2. injection H2 as <- <-. reflexivity. }
  exists b0, g0, b1, g1, b2, g2.
  split; [reflexivity|]. split; [exact H1|]. split; [exact H2|].
  split; [exact Hd|].
  apply (done_means_top_row_reached 1 1 2 0.8 0.3 0 (tape_of []) g0 b0 b2);
    [lia|lia|exact H0| |exact Hd].
  eapply advances_step; [|exact H2].
  eapply advances_step; [apply advances_none|exact H1].
Defined.

(** * Further properties of construction *)

Lemma make_drifters_generator n nc g ds g' :
  replicateM n (make_drifter nc) g = (Ok ds, g') ->
  tape g' = tape g /\ pos g' = (pos g + n)%nat.
Proof.
  revert g ds g'. induction n as [|n IH]; intros g ds g' H; simpl in H.
  - injection H as <- <-. split; [reflexivity|lia].
  - unfold bind in H.
    destruct (Z.ltb_spec 0 nc) as [Hnc|Hnc].
    + rewrite make_drifter_eq in H by exact Hnc.
      destruct (replicateM n (make_drifter nc) (next g)) as [[ds'|e] g1] eqn:Hr;
        [|discriminate].
      injection H as <- <-. destruct (IH _ _ _ Hr) as [Ht Hp].
      split; [exact Ht|]. rewrite Hp. simpl. lia.
    + unfold make_drifter, randrange1, bind in H.
      destruct (Z.ltb_spec 0 nc); [lia|discriminate].
Qed.

Lemma slot_empty_grid n m row col :
  slot (replicate n (replicate m None)) row col = None.
Proof.
  unfold slot.
  destruct (replicate n (replicate m None) !! Z.to_nat row) as [r|] eqn:Hr;
    [|reflexivity].
  apply lookup_replicate in Hr as [-> _].
  destruct (replicate m None !! Z.to_nat col) as [cell|] eqn:Hc;
    [|reflexivity].
  apply lookup_replicate in Hc as [-> _]. reflexivity.
Qed.

(** A board that construction returns has an empty grid, its drifters
    on row 0 in columns of the board, [done] unset and a step count of
    0; construction has made exactly [nb_cols] calls to the generator
    (none for [nb_cols <= 0]). *)
Theorem fresh_board (nr nc hd : Z) (pb db rb : Q) (g g' : Rng) (b : Board) :
  Board_init nr nc hd pb db rb g = (Ok b, g') ->
  (forall row col, slot (cells b) row col = None) /\
  Forall (fun d => fst d = 0 /\ 0 <= snd d < nc) (drifters b) /\
  done b = false /\ step_nb b = 0 /\
  tape g' = tape g /\ pos g' = (pos g + Z.to_nat nc)%nat.
Proof.
  intros Hinit.
  destruct (make_drifters_ok (Z.to_nat nc) nc g ltac:(lia))
    as (ds & g1 & Hrep & _ & Hds).
  destruct (make_drifters_generator _ _ _ _ _ Hrep) as [Ht Hp].
  unfold Board_init in Hinit. erewrite bind_ok in Hinit by exact Hrep.
  destruct (nr =? 0); [discriminate|].
  injection Hinit as <- <-. simpl.
  split; [intros; apply slot_empty_grid|]. auto.
Qed.

Lemma fresh_board_witness :
  exists b g',
    Board_init 2 3 2 0.8 0.3 0 (tape_of [4; 8; 6]%N) = (Ok b, g') /\
    drifters b = [(0, 1); (0, 2); (0, 0)] /\ pos g' = 3%nat.
Proof.
  do 2 eexists. split; [reflexivity|].
  split; [reflexivity|].
  apply (fresh_board 2 3 2 0.8 0.3 0 (tape_of [4; 8; 6]%N) _ _ eq_refl).
Defined.

(** * The content of a snapshot *)

Section Pixels.
Context {St : Type}.
Implicit Types (s : St) (b : Board).

Lemma foldM_prefix {A B} (f : B -> A -> M St B)
    (I : list A -> B -> Prop) (xs : list A) s :
  (forall pre x post acc,
     xs = pre ++ x :: post -> I pre acc ->
     exists acc', f acc x s = (Ok acc', s) /\ I (pre ++ [x]) acc') ->
  forall acc, I [] acc ->
  exists acc', foldM f xs acc s = (Ok acc', s) /\ I xs acc'.
Proof.
  intros Hf.
  assert (H : forall post pre acc,
            xs = pre ++ post -> I pre acc ->
            exists acc', foldM f post acc s = (Ok acc', s) /\ I xs acc').
  { induction post as [|x post IH]; intros pre acc Hxs Hpre.
    - rewrite app_nil_r in Hxs. subst pre. exists acc. split; [reflexivity|auto].
    - destruct (Hf pre x post acc Hxs Hpre) as (acc1 & Hfx & Hacc1).
      destruct (IH (pre ++ [x]) acc1) as (acc' & Hfold & Hacc');
        [rewrite <- app_assoc; exact Hxs|exact Hacc1|].
      exists acc'. split; [|exact Hacc'].
      simpl. erewrite bind_ok by exact Hfx. exact Hfold. }
  intros acc Hacc. apply (H xs [] acc); [reflexivity|exact Hacc].
Qed.

Lemma px_set_eq w h (im : image) x y v s :
  image_shape w h im -> 0 <= x < w -> 0 <= y < h ->
  exists im',
    px_set im x y v s = (Ok im', s) /\
    image_shape w h im' /\
    forall r c, 0 <= r -> 0 <= c ->
      pixel im' r c = if (r =? y) && (c =? x) then Some v else pixel im r c.
Proof.
  intros [Hlen Hrows] Hx Hy. unfold px_set.
  destruct (Z.leb_spec 0 y); [|lia].
  destruct (Z.ltb_spec y (Z.of_nat (length im))); [|lia]. simpl.
  destruct (lookup_lt_is_Some_2 im (Z.to_nat y) ltac:(lia)) as [row Hrow].
  rewrite Hrow.
  assert (Hlr : Z.of_nat (length row) = w).
  { rewrite Forall_lookup in Hrows. eapply Hrows; eauto. }
  destruct (Z.leb_spec 0 x); [|lia].
  destruct (Z.ltb_spec x (Z.of_nat (length row))); [|lia]. simpl.
  eexists. split; [reflexivity|]. split.
  - split.
    + rewrite length_insert. exact Hlen.
    + apply Forall_insert; [exact Hrows|]. rewrite length_insert. exact Hlr.
  - intros r c Hr Hc. unfold pixel. rewrite list_lookup_insert.
    destruct (Z.eqb_spec r y) as [->|Hne].
    + rewrite decide_True by (split; [reflexivity|lia]).
      rewrite Hrow, list_lookup_insert.
      destruct (Z.eqb_spec c x) as [->|Hnc].
      * rewrite decide_True by (split; [reflexivity|lia]). reflexivity.
      * rewrite decide_False by lia. reflexivity.
    + rewrite decide_False by lia. reflexivity.
Qed.

Lemma is_drifter_elem_of b row col :
  is_drifter b row col = true <-> (row, col) ∈ drifters b.
Proof.
  unfold is_drifter. rewrite existsb_exists. split.
  - intros ([r c] & Hin & Heq). simpl in Heq.
    apply andb_true_iff in Heq as [Hr Hc].
    apply Z.eqb_eq in Hr, Hc. subst. apply list_elem_of_In. exact Hin.
  - intros Hin. exists (row, col). split; [apply list_elem_of_In; exact Hin|].
    simpl. rewrite !Z.eqb_refl. reflexivity.
Qed.

(** The colour of a position before the drifters are drawn. *)
Lemma pixel_of_hidden b row col :
  pixel_of b false row col
  = match slot (cells b) row col with
    | Some c => Hsv (hue c) (brightness c)
    | None => Background
    end.
Proof. reflexivity. Qed.

Lemma print_to_image_row b row (rows : list Z) (im : image) s :
  inv b -> 0 <= row < nb_rows b ->
  image_shape (nb_cols b) (nb_rows b) im ->
  (forall r c, 0 <= r < nb_rows b -> 0 <= c < nb_cols b ->
     pixel im r c
     = Some (if decide (r ∈ rows) then pixel_of b false r c else Background)) ->
  exists im',
    foldM (fun im col =>
             r <- getitem (cells b) row ;;
             cell <- getitem r col ;;
             match cell with
             | Some c =>
                 colour <- getrgb_hsv (hue c) (brightness c) ;;
                 px_set im col row colour
             | None => ret im
             end) (range (nb_cols b)) im s = (Ok im', s) /\
    image_shape (nb_cols b) (nb_rows b) im' /\
    (forall r c, 0 <= r < nb_rows b -> 0 <= c < nb_cols b ->
       pixel im' r c
       = Some (if decide (r ∈ rows ++ [row]) then pixel_of b false r c
               else Background)).
Proof.
  intros [Hnr Hnc Hshape Hgrid Hds] Hrow Him Hpix.
  destruct (shape_row b row Hshape Hrow) as (r0 & Hr0 & Hlen).
  destruct (foldM_prefix
              (fun im col =>
                 r <- getitem (cells b) row ;;
                 cell <- getitem r col ;;
                 match cell with
                 | Some c =>
                     colour <- getrgb_hsv (hue c) (brightness c) ;;
                     px_set im col row colour
                 | None => ret im
                 end)
              (fun cols im' =>
                 image_shape (nb_cols b) (nb_rows b) im' /\
                 forall r c, 0 <= r < nb_rows b -> 0 <= c < nb_cols b ->
                   pixel im' r c
                   = Some (if decide (r ∈ rows \/ (r = row /\ c ∈ cols))
                           then pixel_of b false r c else Background))
              (range (nb_cols b)) s) with (acc := im)
    as (im' & Hfold & Him' & Hpix').
  - intros pre col post acc Hsplit [Hacc Hpacc].
    assert (Hcol : 0 <= col < nb_cols b).
    { pose proof (range_bounds (nb_cols b)) as Hb.
      rewrite Hsplit in Hb. apply Forall_app in Hb as [_ Hb].
      apply Forall_inv in Hb. exact Hb. }
    erewrite bind_ok by (apply getitem_eq; [lia|exact Hr0]).
    erewrite bind_ok by (eapply getitem_slot; [exact Hr0|lia]).
    destruct (slot (cells b) row col) as [c0|] eqn:Hslot.
    + pose proof (Hgrid _ _ _ (slot_cell_at _ _ _ _ Hslot)) as [Hh Hb].
      unfold getrgb_hsv.
      destruct (Z.leb_spec 0 (hue c0)); [|lia].
      destruct (Z.leb_spec 0 (brightness c0)); [|lia]. simpl.
      erewrite bind_ok by reflexivity.
      destruct (px_set_eq (nb_cols b) (nb_rows b) acc col row
                  (Hsv (hue c0) (brightness c0)) s Hacc Hcol Hrow)
        as (im1 & Hset & Him1 & Hpim1).
      exists im1. split; [exact Hset|]. split; [exact Him1|].
      intros r c Hr Hc. rewrite Hpim1 by lia.
      destruct (Z.eqb_spec r row) as [->|Hne];
        [destruct (Z.eqb_spec c col) as [->|Hcne]|]; simpl.
      * rewrite decide_True
          by (right; split; [reflexivity|]; rewrite elem_of_app;
              right; apply list_elem_of_singleton; reflexivity).
        rewrite pixel_of_hidden, Hslot. reflexivity.
      * rewrite Hpacc by lia. f_equal.
        apply decide_ext. rewrite elem_of_app, list_elem_of_singleton. tauto.
      * rewrite Hpacc by lia. f_equal.
        apply decide_ext. rewrite elem_of_app, list_elem_of_singleton. tauto.
    + exists acc. split; [reflexivity|]. split; [exact Hacc|].
      intros r c Hr Hc. rewrite Hpacc by lia. f_equal.
      destruct (decide (r = row /\ c = col)) as [[-> ->]|Hne].
      * rewrite pixel_of_hidden, Hslot.
        destruct (decide _), (decide _); reflexivity.
      * apply decide_ext. rewrite elem_of_app, list_elem_of_singleton. tauto.
  - split; [exact Him|]. intros r c Hr Hc. rewrite Hpix by lia. f_equal.
    apply decide_ext. rewrite elem_of_nil. tauto.
  - exists im'. split; [exact Hfold|]. split; [exact Him'|].
    intros r c Hr Hc. rewrite Hpix' by lia. f_equal.
    apply decide_ext. rewrite elem_of_app, list_elem_of_singleton.
    unfold range. rewrite elem_of_seqZ. split; [|intros [?|?]; auto; lia].
    intros [?|[? _]]; auto.
Qed.
End Pixels.

Section Snapshot.
Context {St : Type}.
Implicit Types (s : St) (b : Board).

(** A snapshot of a board that satisfies the invariant is produced, the
    state is untouched, and each pixel has the colour of its position. *)
Lemma print_to_image_eq b show_drifters s :
  inv b ->
  exists im,
    print_to_image b show_drifters s = (Ok im, s) /\
    image_shape (nb_cols b) (nb_rows b) im /\
    forall row col, 0 <= row < nb_rows b -> 0 <= col < nb_cols b ->
      pixel im row col = Some (pixel_of b show_drifters row col).
Proof.
  intros Hinv. pose proof Hinv as [Hnr Hnc Hshape Hgrid Hds].
  unfold print_to_image, Image_new.
  destruct (Z.ltb_spec (nb_cols b) 0); [lia|].
  destruct (Z.ltb_spec (nb_rows b) 0); [lia|]. simpl orb. cbv iota.
  erewrite bind_ok by reflexivity.
  set (im0 := replicate (Z.to_nat (nb_rows b))
                (replicate (Z.to_nat (nb_cols b)) Background)).
  assert (Him0 : image_shape (nb_cols b) (nb_rows b) im0).
  { split.
    - unfold im0. rewrite length_replicate. lia.
    - apply Forall_replicate. rewrite length_replicate. lia. }
  assert (Hp0 : forall r c, 0 <= r < nb_rows b -> 0 <= c < nb_cols b ->
            pixel im0 r c = Some Background).
  { intros r c Hr Hc. unfold pixel, im0.
    rewrite lookup_replicate_2 by lia. apply lookup_replicate_2. lia. }
  destruct (foldM_prefix
              (fun im row =>
                 foldM (fun im col =>
                          r <- getitem (cells b) row ;;
                          cell <- getitem r col ;;
                          match cell with
                          | Some c =>
                              colour <- getrgb_hsv (hue c) (brightness c) ;;
                              px_set im col row colour
                          | None => ret im
                          end) (range (nb_cols b)) im)
              (fun rows im =>
                 image_shape (nb_cols b) (nb_rows b) im /\
                 forall r c, 0 <= r < nb_rows b -> 0 <= c < nb_cols b ->
                   pixel im r c
                   = Some (if decide (r ∈ rows) then pixel_of b false r c
                           else Background))
              (range (nb_rows b)) s) with (acc := im0)
    as (im1 & Hfold & Him1 & Hp1).
  - intros pre row post acc Hsplit [Hacc Hpacc].
    assert (Hrow : 0 <= row < nb_rows b).
    { pose proof (range_bounds (nb_rows b)) as Hb.
      rewrite Hsplit in Hb. apply Forall_app in Hb as [_ Hb].
      apply Forall_inv in Hb. exact Hb. }
    destruct (print_to_image_row b row pre acc s Hinv Hrow Hacc Hpacc)
      as (im' & Hrun & Him' & Hp'). eauto.
  - split; [exact Him0|]. intros r c Hr Hc. rewrite Hp0 by lia.
    rewrite decide_False by (rewrite elem_of_nil; tauto). reflexivity.
  - erewrite bind_ok by exact Hfold.
    assert (Hbase : forall r c, 0 <= r < nb_rows b -> 0 <= c < nb_cols b ->
              pixel im1 r c = Some (pixel_of b false r c)).
    { intros r c Hr Hc. rewrite Hp1 by lia.
      rewrite decide_True by (unfold range; rewrite elem_of_seqZ; lia).
      reflexivity. }
    destruct show_drifters; [|exists im1; auto].
    destruct (foldM_prefix
                (fun im d => px_set im (snd d) (fst d) White)
                (fun ds im =>
                   image_shape (nb_cols b) (nb_rows b) im /\
                   forall r c, 0 <= r < nb_rows b -> 0 <= c < nb_cols b ->
                     pixel im r c
                     = Some (if decide ((r, c) ∈ ds) then White
                             else pixel_of b false r c))
                (drifters b) s) with (acc := im1)
      as (im2 & Hfold2 & Him2 & Hp2).
    + intros pre [row col] post acc Hsplit [Hacc Hpacc]. simpl.
      assert (Hd : on_board (nb_rows b) (nb_cols b) (row, col)).
      { rewrite Hsplit in Hds. apply Forall_app in Hds as [_ Hb].
        apply Forall_inv in Hb. exact Hb. }
      destruct Hd as [Hrow Hcol]. simpl in Hrow, Hcol.
      destruct (px_set_eq (nb_cols b) (nb_rows b) acc col row White s
                  Hacc Hcol Hrow) as (im' & Hset & Him' & Hp').
      exists im'. split; [exact Hset|]. split; [exact Him'|].
      intros r c Hr Hc. rewrite Hp' by lia.
      destruct (Z.eqb_spec r row) as [->|Hne];
        [destruct (Z.eqb_spec c col) as [->|Hcne]|]; simpl.
      * rewrite decide_True
          by (rewrite elem_of_app; right; apply list_elem_of_singleton;
              reflexivity).
        reflexivity.
      * rewrite Hpacc by lia. f_equal. apply decide_ext.
        rewrite elem_of_app, list_elem_of_singleton.
        split; [auto|intros [?|[=]]; [assumption|lia]].
      * rewrite Hpacc by lia. f_equal. apply decide_ext.
        rewrite elem_of_app, list_elem_of_singleton.
        split; [auto|intros [?|[=]]; [assumption|lia]].
    + split; [exact Him1|]. intros r c Hr Hc. rewrite Hbase by lia.
      rewrite decide_False by (rewrite elem_of_nil; tauto). reflexivity.
    + exists im2. split; [exact Hfold2|]. split; [exact Him2|].
      intros r c Hr Hc. rewrite Hp2 by lia. f_equal.
      unfold pixel_of at 2. simpl andb.
      destruct (is_drifter b r c) eqn:Hdr.
      * apply decide_True. apply is_drifter_elem_of. exact Hdr.
      * apply decide_False. rewrite <- is_drifter_elem_of. congruence.
Qed.
End Snapshot.

(** A snapshot of a board that satisfies the invariant has [nb_cols] by
    [nb_rows] pixels; the pixel of a position is white when the
    drifters are shown and one of them is there, and else the colour
    of the hue and brightness of the cell settled there, or the
    background when the slot is empty.  Taking it changes nothing. *)
Theorem snapshot_pixels (St : Type) (s : St) (b : Board)
    (show_drifters : bool) :
  inv b ->
  exists im,
    print_to_image b show_drifters s = (Ok im, s) /\
    image_shape (nb_cols b) (nb_rows b) im /\
    forall row col, 0 <= row < nb_rows b -> 0 <= col < nb_cols b ->
      pixel im row col = Some (pixel_of b show_drifters row col).
Proof. intros Hinv. apply print_to_image_eq. exact Hinv. Qed.

Lemma snapshot_pixels_witness :
  exists im,
    print_to_image
      (mkBoard 1 1 [[Some (mkCoralCell 300 0)]] 1 false [(0, 0)] 2
         80 0.475 0.5) false tt = (Ok im, tt) /\
    pixel im 0 0 = Some (Hsv 300 0).
Proof.
  destruct (snapshot_pixels unit tt
              (mkBoard 1 1 [[Some (mkCoralCell 300 0)]] 1 false [(0, 0)] 2
                 80 0.475 0.5) false (seeded_one_by_one_inv 2))
    as (im & Heq & _ & Hpix).
  exists im. split; [exact Heq|].
  apply (Hpix 0 0); simpl; lia.
Defined.

(** The snapshot of a board just constructed with positive dimensions
    is uniformly of the background colour; with the drifters shown,
    the white pixels are those of the drifters on row 0. *)
Theorem snapshot_of_fresh_board (nr nc hd : Z) (pb db rb : Q) (g g' : Rng)
    (b : Board) (show_drifters : bool) :
  0 < nr -> 0 < nc ->
  Board_init nr nc hd pb db rb g = (Ok b, g') ->
  exists im,
    print_to_image b show_drifters tt = (Ok im, tt) /\
    image_shape nc nr im /\
    forall row col, 0 <= row < nr -> 0 <= col < nc ->
      pixel im row col
      = Some (if show_drifters && is_drifter b row col then White
              else Background) /\
      (is_drifter b row col = true -> row = 0).
Proof.
  intros Hnr Hnc Hinit.
  destruct (Board_init_eq nr nc hd pb db rb g) as (ds & g1 & _ & Hds & Heq).
  destruct (Board_init_inv nr nc hd pb db rb g Hnr Hnc)
    as (b' & g2 & Hinit' & Hinv & Er & Ec & _ & _ & Hcells & _).
  rewrite Hinit in Hinit'. injection Hinit' as <- <-.
  destruct (print_to_image_eq b show_drifters tt Hinv)
    as (im & Hrun & Him & Hpix).
  rewrite Er, Ec in *.
  exists im. split; [exact Hrun|]. split; [exact Him|].
  intros row col Hrow Hcol. split.
  - rewrite Hpix by lia. unfold pixel_of. rewrite Hcells, slot_empty_grid.
    reflexivity.
  - intros Hdr. apply is_drifter_elem_of in Hdr.
    rewrite Hinit in Heq. destruct (nr =? 0); [discriminate|].
    injection Heq as -> _. simpl in Hdr.
    rewrite Forall_forall in Hds. apply (Hds (row, col) Hdr).
Qed.

Lemma snapshot_of_fresh_board_witness :
  0 < 2 /\ 0 < 3 /\
  exists b g' im,
    Board_init 2 3 2 0.8 0.3 0 (tape_of [4; 8; 6]%N) = (Ok b, g') /\
    print_to_image b false tt = (Ok im, tt) /\
    pixel im 1 2 = Some Background.
Proof.
  split; [lia|]. split; [lia|].
  destruct (Board_init 2 3 2 0.8 0.3 0 (tape_of [4; 8; 6]%N))
    as [[b|e] g'] eqn:Hinit; [|vm_compute in Hinit; discriminate].
  destruct (snapshot_of_fresh_board 2 3 2 0.8 0.3 0 (tape_of [4; 8; 6]%N)
              g' b false ltac:(lia) ltac:(lia) Hinit)
    as (im & Hrun & _ & Hpix).
  exists b, g', im. split; [reflexivity|]. split; [exact Hrun|].
  apply (Hpix 1 2); lia.
Defined.

(** * [Board.run] *)

Lemma bind_the_board {B} (k : Board -> M Session B) b g evs :
  bind the_board k ((b, g), evs) = k b ((b, g), evs).
Proof. reflexivity. Qed.

Lemma bind_liftW {A B} (m : M World A) (k : A -> M Session B) w evs :
  bind (liftW m) k (w, evs)
  = match m w with
    | (Ok a, w') => k a (w', evs)
    | (Raise e, w') => (Raise e, (w', evs))
    end.
Proof.
  unfold bind, liftW. simpl. destruct (m w) as [[a|e] w']; reflexivity.
Qed.

Lemma printed_app evs1 evs2 :
  printed (evs1 ++ evs2) = printed evs1 ++ printed evs2.
Proof.
  induction evs1 as [|[n|im|p n im] evs1 IH]; simpl; congruence.
Qed.

Lemma snapshots_app evs1 evs2 :
  snapshots (evs1 ++ evs2) = snapshots evs1 ++ snapshots evs2.
Proof.
  induction evs1 as [|[n|im|p n im] evs1 IH]; simpl; congruence.
Qed.

Lemma due_steps_none period n : due_steps period n n = [].
Proof.
  unfold due_steps. destruct (period =? 0); [reflexivity|].
  rewrite Z.sub_diag. reflexivity.
Qed.

Lemma due_steps_first period n n' :
  n < n' ->
  due_steps period n n'
  = (if negb (period =? 0) && ((n + 1) mod period =? 0) then [n + 1] else [])
    ++ due_steps period (n + 1) n'.
Proof.
  intros Hlt. unfold due_steps. destruct (period =? 0); [reflexivity|].
  rewrite (seqZ_cons (n + 1)) by lia. rewrite filter_cons.
  replace (Z.succ (n + 1)) with (n + 1 + 1) by lia.
  replace (Z.pred (n' - n)) with (n' - (n + 1)) by lia.
  simpl negb. simpl andb.
  destruct (Z.eqb_spec ((n + 1) mod period) 0).
  - rewrite decide_True by assumption. reflexivity.
  - rewrite decide_False by assumption. reflexivity.
Qed.

(** What one iteration of the loop prints. *)
Lemma run_print_block print_step n (w : World) evs :
  (if negb (print_step =? 0) then
     m <- py_mod n print_step ;;
     if m =? 0 then emit (Printed n) else ret tt
   else ret tt) (w, evs)
  = (Ok tt,
     (w, evs ++ (if negb (print_step =? 0) && (n mod print_step =? 0)
                 then [Printed n] else []))).
Proof.
  destruct (Z.eqb_spec print_step 0) as [Hz|Hnz]; simpl.
  - rewrite app_nil_r. reflexivity.
  - erewrite bind_ok by (apply py_mod_eq; exact Hnz).
    destruct (n mod print_step =? 0); [reflexivity|].
    rewrite app_nil_r. reflexivity.
Qed.

(** What one iteration of the loop sends to the imaging library, on a
    board that satisfies the invariant. *)
Lemma run_snapshot_block image_step save_prefix b g evs :
  inv b ->
  exists out,
    (if negb (image_step =? 0) then
       m <- py_mod (step_nb b) image_step ;;
       if m =? 0 then
         snapshot <- print_to_image b true ;;
         match save_prefix with
         | None => emit (Shown snapshot)
         | Some prefix =>
             n <- py_floordiv (step_nb b) image_step ;;
             emit (Saved prefix n snapshot)
         end
       else ret tt
     else ret tt) ((b, g), evs)
    = (Ok tt, ((b, g), evs ++ out)) /\
    printed out = [] /\
    snapshots out
    = if negb (image_step =? 0) && (step_nb b mod image_step =? 0)
      then [match save_prefix with
            | None => None
            | Some prefix => Some (prefix, step_nb b / image_step)
            end]
      else [].
Proof.
  intros Hinv.
  destruct (Z.eqb_spec image_step 0) as [Hz|Hnz]; simpl.
  - exists []. rewrite app_nil_r. auto.
  - erewrite bind_ok by (apply py_mod_eq; exact Hnz).
    destruct (step_nb b mod image_step =? 0);
      [|exists []; rewrite app_nil_r; auto].
    destruct (print_to_image_eq b true ((b, g), evs) Hinv)
      as (im & Him & _).
    erewrite bind_ok by exact Him.
    destruct save_prefix as [prefix|].
    + exists [Saved prefix (step_nb b / image_step) im].
      unfold py_floordiv. destruct (Z.eqb_spec image_step 0); [lia|].
      erewrite bind_ok by reflexivity. auto.
    + exists [Shown im]. auto.
Qed.

(** The loop of [run] on a board that satisfies the invariant and
    whose hue spread is not negative. *)
Lemma run_loop_spec print_step image_step save_prefix fuel :
  forall b g evs,
    inv b -> 0 <= hue_diff b ->
    exists ok b' g' evs',
      run_loop print_step image_step save_prefix fuel ((b, g), evs)
      = (Ok ok, ((b', g'), evs')) /\
      advances b b' /\
      step_nb b <= step_nb b' <= step_nb b + Z.of_nat fuel /\
      (if ok then done b' = true
       else done b' = false /\ step_nb b' = step_nb b + Z.of_nat fuel) /\
      printed evs' = printed evs ++ due_steps print_step (step_nb b) (step_nb b') /\
      snapshots evs'
      = snapshots evs
        ++ map (fun k => match save_prefix with
                         | None => None
                         | Some prefix => Some (prefix, k / image_step)
                         end)
               (due_steps image_step (step_nb b) (step_nb b')).
Proof.
  induction fuel as [|fuel IH]; intros b g evs Hinv Hhd.
  - exists (done b), b, g, evs. split.
    + simpl. rewrite bind_the_board. destruct (done b); reflexivity.
    + split; [apply advances_none|]. split; [lia|].
      rewrite !due_steps_none, !app_nil_r.
      split; [destruct (done b) eqn:Hd; [reflexivity|split; [reflexivity|lia]]|].
      auto.
  - destruct (done b) eqn:Hd.
    + exists true, b, g, evs. split.
      * simpl. rewrite bind_the_board, Hd. reflexivity.
      * split; [apply advances_none|]. split; [lia|].
        rewrite !due_steps_none, !app_nil_r. auto.
    + destruct (step (b, g)) as [r [b1 g1]] eqn:Hstep.
      destruct (step_facts b g r b1 g1 Hinv Hstep)
        as (Hinv1 & (_ & _ & Eh & _) & Hsn & _ & _ & Hr).
      destruct r as [[]|e]; [|destruct Hr as (_ & Hneg & _); lia].
      destruct (run_snapshot_block image_step save_prefix b1 g1
                  (evs ++ (if negb (print_step =? 0)
                              && (step_nb b1 mod print_step =? 0)
                           then [Printed (step_nb b1)] else []))
                  Hinv1) as (out & Hsnap & Hout_p & Hout_s).
      destruct (IH b1 g1
                  ((evs ++ (if negb (print_step =? 0)
                               && (step_nb b1 mod print_step =? 0)
                            then [Printed (step_nb b1)] else [])) ++ out)
                  Hinv1 ltac:(lia))
        as (ok & b' & g' & evs' & Hrun & Hadv & Hbound & Hok & Hpr & Hsn').
      exists ok, b', g', evs'. split.
      * simpl. rewrite bind_the_board, Hd, bind_liftW, Hstep.
        rewrite bind_the_board.
        erewrite bind_ok by apply run_print_block.
        erewrite bind_ok by exact Hsnap.
        exact Hrun.
      * split.
        { clear - Hadv Hstep. induction Hadv as [|b2 g2 r2 b3 g3 _ IH2 H2].
          - eapply advances_step; [apply advances_none|exact Hstep].
          - eapply advances_step; [exact IH2|exact H2]. }
        split; [lia|]. split.
        { destruct ok; [exact Hok|]. destruct Hok as [Hd' Hs]. split; [auto|lia]. }
        rewrite Hpr, Hsn'. rewrite !printed_app, !snapshots_app.
        rewrite Hout_p, Hout_s.
        rewrite (due_steps_first print_step (step_nb b) (step_nb b')) by lia.
        rewrite (due_steps_first image_step (step_nb b) (step_nb b')) by lia.
        rewrite <- Hsn. rewrite map_app.
        destruct (negb (print_step =? 0) && (step_nb b1 mod print_step =? 0));
          destruct (negb (image_step =? 0) && (step_nb b1 mod image_step =? 0));
          simpl; rewrite ?app_nil_r, <- ?app_assoc; split; reflexivity.
Qed.

Lemma with_step_nb_inv b n : inv b -> inv (with_step_nb b n).
Proof. intros [? ? ? ? ?]. constructor; assumption. Qed.

(** [run] on a board that satisfies the invariant and whose hue spread
    is not negative. *)
Lemma run_spec print_step image_step save_prefix fuel b g evs :
  inv b -> 0 <= hue_diff b ->
  exists ok b' g' evs',
    run print_step image_step save_prefix fuel ((b, g), evs)
    = (Ok ok, ((b', g'), evs')) /\
    advances (with_step_nb b 0) b' /\
    0 <= step_nb b' <= Z.of_nat fuel /\
    (if ok then done b' = true
     else done b' = false /\ step_nb b' = Z.of_nat fuel) /\
    printed evs' = printed evs ++ due_steps print_step 0 (step_nb b') /\
    snapshots evs'
    = snapshots evs
      ++ map (fun k => match save_prefix with
                       | None => None
                       | Some prefix => Some (prefix, k / image_step)
                       end)
             (due_steps image_step 0 (step_nb b')).
Proof.
  intros Hinv Hhd.
  destruct (run_loop_spec print_step image_step save_prefix fuel
              (with_step_nb b 0) g evs (with_step_nb_inv b 0 Hinv) Hhd)
    as (ok & b' & g' & evs' & Hrun & Hadv & Hbound & Hok & Hpr & Hsn).
  simpl step_nb in *. exists ok, b', g', evs'.
  split; [unfold run; rewrite bind_liftW; exact Hrun|].
  split; [exact Hadv|]. split; [lia|].
  split; [destruct ok; [exact Hok|]; destruct Hok; split; [auto|lia]|].
  auto.
Qed.

(** [run] on a board whose [done] is set makes no advance, prints and
    shows nothing and only resets the step count to 0, whatever the
    bound on the iterations. *)
Theorem run_on_done_board (print_step image_step : Z)
    (save_prefix : option string) (fuel : nat)
    (b : Board) (g : Rng) (evs : list event) :
  done b = true ->
  run print_step image_step save_prefix fuel ((b, g), evs)
  = (Ok true, ((with_step_nb b 0, g), evs)).
Proof.
  intros Hd. unfold run. rewrite bind_liftW. simpl.
  destruct fuel; simpl; rewrite bind_the_board;
    change (done (with_step_nb b 0)) with (done b); rewrite Hd; reflexivity.
Qed.

Lemma run_on_done_board_witness :
  run 1 1 None 5
    ((mkBoard 1 1 [[Some (mkCoralCell 298 1)]] 2 true [(0, 0)] 2
        80 0.475 0.5, tape_of []), [])
  = (Ok true,
     ((mkBoard 1 1 [[Some (mkCoralCell 298 1)]] 0 true [(0, 0)] 2
         80 0.475 0.5, tape_of []), [])).
Proof. apply run_on_done_board. reflexivity. Defined.

(** On a board that satisfies the invariant and whose hue spread is not
    negative [run] never raises.  Within a bound of [fuel] iterations
    it either returns, and then [done] is set and the step count is the
    number of advances it made, or it is still running, and then it has
    made [fuel] advances and [done] is not set. *)
Theorem run_outcome (print_step image_step : Z)
    (save_prefix : option string) (fuel : nat)
    (b : Board) (g : Rng) (evs : list event) :
  inv b -> 0 <= hue_diff b ->
  exists ok b' g' evs',
    run print_step image_step save_prefix fuel ((b, g), evs)
    = (Ok ok, ((b', g'), evs')) /\
    advances (with_step_nb b 0) b' /\
    0 <= step_nb b' <= Z.of_nat fuel /\
    (if ok then done b' = true
     else done b' = false /\ step_nb b' = Z.of_nat fuel).
Proof.
  intros Hinv Hhd.
  destruct (run_spec print_step image_step save_prefix fuel b g evs Hinv Hhd)
    as (ok & b' & g' & evs' & Hrun & Hadv & Hbound & Hok & _).
  exists ok, b', g', evs'. auto.
Qed.

Lemma run_outcome_witness :
  0 <= 2 /\
  exists b' g' evs',
    run 0 0 None 5
      ((mkBoard 1 1 [[Some (mkCoralCell 300 0)]] 1 false [(0, 0)] 2
          80 0.475 0.5, tape_of []), [])
    = (Ok true, ((b', g'), evs')) /\
    step_nb b' = 1 /\ done b' = true.
Proof.
  split; [lia|].
  destruct (run_outcome 0 0 None 5
              (mkBoard 1 1 [[Some (mkCoralCell 300 0)]] 1 false [(0, 0)] 2
                 80 0.475 0.5) (tape_of []) [] (seeded_one_by_one_inv 2)
              ltac:(simpl; lia))
    as (ok & b' & g' & evs' & Hrun & _).
  vm_compute in Hrun. injection Hrun as <- <- <- <-.
  do 3 eexists. split; [reflexivity|]. split; reflexivity.
Defined.

(** The step numbers that [run] prints are, in order, the multiples of
    [print_step] among the steps 1 to the final step count; nothing is
    printed for [print_step = 0]. *)
Theorem run_prints_due_steps (print_step image_step : Z)
    (save_prefix : option string) (fuel : nat)
    (b : Board) (g : Rng) (evs : list event)
    (ok : bool) (b' : Board) (g' : Rng) (evs' : list event) :
  inv b -> 0 <= hue_diff b ->
  run print_step image_step save_prefix fuel ((b, g), evs)
  = (Ok ok, ((b', g'), evs')) ->
  printed evs'
  = printed evs
    ++ (if print_step =? 0 then []
        else filter (fun k => k mod print_step = 0) (seqZ 1 (step_nb b'))).
Proof.
  intros Hinv Hhd Hrun.
  destruct (run_spec print_step image_step save_prefix fuel b g evs Hinv Hhd)
    as (ok1 & b1 & g1 & evs1 & Hrun1 & _ & _ & _ & Hpr & _).
  rewrite Hrun in Hrun1. injection Hrun1 as <- <- <- <-.
  rewrite Hpr. unfold due_steps. rewrite Z.sub_0_r. reflexivity.
Qed.

Lemma frames_consecutive period n :
  0 < period -> 0 <= n ->
  map (fun k => k / period) (due_steps period 0 n) = seqZ 1 (n / period).
Proof.
  intros Hp Hn. unfold due_steps.
  destruct (Z.eqb_spec period 0); [lia|].
  rewrite Z.sub_0_r. change (0 + 1) with 1.
  rewrite <- (Z2Nat.id n Hn). generalize (Z.to_nat n). clear n Hn.
  induction n as [|m IH].
  - simpl. rewrite Z.div_0_l by lia. reflexivity.
  - rewrite seqZ_S, filter_app, map_app, IH.
    rewrite filter_cons, filter_nil.
    pose proof (Z.div_mod (1 + Z.of_nat m) period ltac:(lia)) as Hdm.
    pose proof (Z.mod_pos_bound (1 + Z.of_nat m) period Hp) as Hb.
    pose proof (Z.div_pos (Z.of_nat m) period ltac:(lia) Hp) as Hq.
    replace (Z.of_nat (S m)) with (1 + Z.of_nat m) by lia.
    destruct (decide ((1 + Z.of_nat m) mod period = 0)) as [Hz|Hnz].
    + assert (Hdiv : (1 + Z.of_nat m) / period = Z.of_nat m / period + 1).
      { assert (Hm : (1 + Z.of_nat m) / period - 1 = Z.of_nat m / period).
        { apply (Z.div_unique_pos _ _ _ (period - 1)); lia. }
        lia. }
      rewrite Hdiv. rewrite seqZ_app by lia. simpl map. f_equal.
      rewrite seqZ_cons by lia. rewrite seqZ_nil by lia. f_equal. lia.
    + assert (Hdiv : (1 + Z.of_nat m) / period = Z.of_nat m / period).
      { apply (Z.div_unique_pos _ _ _ ((1 + Z.of_nat m) mod period - 1)); lia. }
      rewrite Hdiv. simpl. rewrite app_nil_r. reflexivity.
Qed.

(** For a positive [image_step], the snapshots that [run] takes are
    [step count // image_step] in number; saved under a prefix they are
    numbered 1, 2, 3, ... in order. *)
Theorem run_numbers_frames_consecutively (print_step image_step : Z)
    (save_prefix : option string) (fuel : nat)
    (b : Board) (g : Rng) (evs : list event)
    (ok : bool) (b' : Board) (g' : Rng) (evs' : list event) :
  inv b -> 0 <= hue_diff b -> 0 < image_step ->
  run print_step image_step save_prefix fuel ((b, g), evs)
  = (Ok ok, ((b', g'), evs')) ->
  snapshots evs'
  = snapshots evs
    ++ map (fun i => match save_prefix with
                     | None => None
                     | Some prefix => Some (prefix, i)
                     end)
           (seqZ 1 (step_nb b' / image_step)).
Proof.
  intros Hinv Hhd His Hrun.
  destruct (run_spec print_step image_step save_prefix fuel b g evs Hinv Hhd)
    as (ok1 & b1 & g1 & evs1 & Hrun1 & _ & Hbound & _ & _ & Hsn).
  rewrite Hrun in Hrun1. injection Hrun1 as <- <- <- <-.
  rewrite Hsn. f_equal.
  rewrite <- (frames_consecutive image_step (step_nb b')) by lia.
  rewrite map_map. reflexivity.
Qed.

Lemma column_board_inv :
  inv (mkBoard 3 1 [[None]; [None]; [None]] 0 false [(0, 0)] 2 80 1 0.5).
Proof.
  constructor; simpl; try lia.
  - split; [reflexivity|repeat constructor].
  - apply (empty_grid_ok 3 1).
  - repeat constructor; simpl; lia.
Qed.

Lemma run_prints_due_steps_witness :
  0 <= 2 /\
  exists b' g' evs',
    run 2 3 (Some "f"%string) 10
      ((mkBoard 3 1 [[None]; [None]; [None]] 0 false [(0, 0)] 2 80 1 0.5,
        tape_of []), [])
    = (Ok true, ((b', g'), evs')) /\
    step_nb b' = 6 /\
    printed evs' = [2; 4; 6].
Proof.
  split; [lia|].
  destruct (run 2 3 (Some "f"%string) 10
              ((mkBoard 3 1 [[None]; [None]; [None]] 0 false [(0, 0)] 2
                  80 1 0.5, tape_of []), []))
    as [r [[b' g'] evs']] eqn:Hrun.
  pose proof Hrun as Hval. vm_compute in Hval.
  injection Hval as <- <- <- <-.
  do 3 eexists. split; [reflexivity|]. split; [reflexivity|].
  etransitivity;
    [exact (run_prints_due_steps _ _ _ _ _ _ _ _ _ _ _
              column_board_inv ltac:(simpl; lia) Hrun)
    |vm_compute; reflexivity].
Defined.

Lemma run_numbers_frames_consecutively_witness :
  0 <= 2 /\ 0 < 3 /\
  exists b' g' evs',
    run 2 3 (Some "f"%string) 10
      ((mkBoard 3 1 [[None]; [None]; [None]] 0 false [(0, 0)] 2 80 1 0.5,
        tape_of []), [])
    = (Ok true, ((b', g'), evs')) /\
    snapshots evs' = [Some ("f"%string, 1); Some ("f"%string, 2)].
Proof.
  split; [lia|]. split; [lia|].
  destruct (run 2 3 (Some "f"%string) 10
              ((mkBoard 3 1 [[None]; [None]; [None]] 0 false [(0, 0)] 2
                  80 1 0.5, tape_of []), []))
    as [r [[b' g'] evs']] eqn:Hrun.
  pose proof Hrun as Hval. vm_compute in Hval.
  injection Hval as <- <- <- <-.
  do 3 eexists. split; [reflexivity|].
  etransitivity;
    [exact (run_numbers_frames_consecutively 2 3 (Some "f"%string) 10
              _ _ _ _ _ _ _
              column_board_inv ltac:(simpl; lia) ltac:(lia) Hrun)
    |vm_compute; reflexivity].
Defined.

(** On a 1 x 1 board whose slot is occupied and whose hue spread is not
    negative, an advance settles and sets [done]. *)
Lemma one_by_one_settles b g c :
  nb_rows b = 1 -> nb_cols b = 1 -> drifters b = [(0, 0)] ->
  cells b = [[Some c]] -> 0 <= hue_diff b ->
  exists b' g', step (b, g) = (Ok tt, (b', g')) /\ done b' = true.
Proof.
  intros Er Ec Hd Hcells Hhd.
  set (b1 := with_step_nb b (step_nb b + 1)).
  assert (Hshape : shape_ok b1).
  { split; simpl; rewrite Hcells; [rewrite Er; reflexivity|].
    rewrite Ec. repeat constructor. }
  assert (Hpos : on_board (nb_rows b1) (nb_cols b1) (0, 0)).
  { split; simpl; lia. }
  assert (Hcol : collected b1 0 0 = [c; c]).
  { unfold collected. simpl cells. simpl nb_rows. simpl nb_cols.
    rewrite Hcells, Er, Ec. reflexivity. }
  pose proof (wp_get_coral_neighbour b1 0 0 g
                (fun o _ => o = Some c) never Hshape Hpos) as Hn.
  apply wp_never in Hn.
  - destruct Hn as (o & g1 & Hn & ->).
    rewrite (step_single b g (0, 0)) by exact Hd. cbn [fst snd]. fold b1.
    rewrite drifter_step_eq by assumption.
    rewrite Hn, get_child_eq by exact Hhd.
    do 2 eexists. split; [reflexivity|]. simpl. apply orb_true_r.
  - rewrite Hcol. discriminate.
  - rewrite Hcol. intros x Hx.
    apply elem_of_cons in Hx as [->|Hx]; [reflexivity|].
    apply list_elem_of_singleton in Hx as ->. reflexivity.
Qed.

(** [run] on a board just constructed with one row and one column, for
    a hue spread that is not negative, returns after exactly two
    advances, whatever the generator and the other parameters: within
    any bound of at least two iterations the loop has ended with a step
    count of 2. *)
Theorem run_one_by_one_takes_two_advances
    (hd : Z) (pb db rb : Q) (g : Rng)
    (print_step image_step : Z) (save_prefix : option string) (fuel : nat) :
  0 <= hd -> (2 <= fuel)%nat ->
  exists b0 g0 b' g' evs',
    Board_init 1 1 hd pb db rb g = (Ok b0, g0) /\
    run print_step image_step save_prefix fuel ((b0, g0), [])
    = (Ok true, ((b', g'), evs')) /\
    step_nb b' = 2 /\ done b' = true.
Proof.
  intros Hhd Hfuel.
  destruct (one_by_one_first_advance hd pb db rb g)
    as (b0 & g0 & b1 & g1 & h & Hinit & Hd0 & Hstep1 & Er & Ec & Eh & Hd1 &
        Hcells & Hh & Hdone1).
  destruct (Board_init_inv 1 1 hd pb db rb g ltac:(lia) ltac:(lia))
    as (b0' & g0' & Hinit' & Hinv0 & _ & _ & Eh0 & _ & _ & Hdone0 & Hsn0).
  rewrite Hinit in Hinit'. injection Hinit' as <- <-.
  assert (Hb0 : with_step_nb b0 0 = b0)
    by (destruct b0; simpl in *; subst; reflexivity).
  destruct (step_facts b0 g0 _ b1 g1 Hinv0 Hstep1)
    as (Hinv1 & _ & Hsn1 & _).
  destruct (one_by_one_settles b1 g1 (mkCoralCell h 0) Er Ec Hd1 Hcells
              ltac:(lia)) as (b2 & g2 & Hstep2 & Hdone2).
  destruct (step_facts b1 g1 _ b2 g2 Hinv1 Hstep2)
    as (Hinv2 & _ & Hsn2 & _).
  destruct fuel as [|[|fuel]]; try lia.
  destruct (run_snapshot_block image_step save_prefix b1 g1
              ([] ++ (if negb (print_step =? 0)
                         && (step_nb b1 mod print_step =? 0)
                      then [Printed (step_nb b1)] else []))
              Hinv1) as (out1 & Hsnap1 & _).
  destruct (run_snapshot_block image_step save_prefix b2 g2
              ((([] ++ (if negb (print_step =? 0)
                           && (step_nb b1 mod print_step =? 0)
                        then [Printed (step_nb b1)] else [])) ++ out1)
               ++ (if negb (print_step =? 0)
                      && (step_nb b2 mod print_step =? 0)
                   then [Printed (step_nb b2)] else []))
              Hinv2) as (out2 & Hsnap2 & _).
  exists b0, g0, b2, g2. eexists.
  split; [exact Hinit|]. split; [|split; [lia|exact Hdone2]].
  unfold run. rewrite bind_liftW.
  change (update_self (fun b => with_step_nb b 0) (b0, g0))
    with (@Ok unit tt, (with_step_nb b0 0, g0)).
  cbv iota. rewrite Hb0.
  simpl run_loop.
  rewrite bind_the_board, Hdone0, bind_liftW, Hstep1, bind_the_board.
  erewrite bind_ok by apply run_print_block.
  erewrite bind_ok by exact Hsnap1.
  rewrite bind_the_board, Hdone1, bind_liftW, Hstep2, bind_the_board.
  erewrite bind_ok by apply run_print_block.
  erewrite bind_ok by exact Hsnap2.
  destruct fuel; simpl; rewrite bind_the_board, Hdone2; reflexivity.
Qed.

Lemma run_one_by_one_takes_two_advances_witness :
  0 <= 2 /\ (2 <= 7)%nat /\
  exists b0 g0 w,
    Board_init 1 1 2 0.8 0.3 0 (tape_of [3; 1; 4]%N) = (Ok b0, g0) /\
    run 1 0 None 7 ((b0, g0), []) = (Ok true, w) /\
    printed (snd w) = [1; 2].
Proof.
  split; [lia|]. split; [lia|].
  destruct (run_one_by_one_takes_two_advances 2 0.8 0.3 0
              (tape_of [3; 1; 4]%N) 1 0 None 7 ltac:(lia) ltac:(lia))
    as (b0 & g0 & b' & g' & evs' & Hinit & Hrun & _).
  exists b0, g0, ((b', g'), evs'). split; [exact Hinit|].
  split; [exact Hrun|].
  vm_compute in Hinit. injection Hinit as <- <-.
  vm_compute in Hrun. injection Hrun as <- <- <-. reflexivity.
Defined.

(** * The textual snapshot *)

Section Text.
Context {St : Type}.
Implicit Types (s : St) (b : Board).

Lemma mapM_pure {A B} (f : A -> M St B) (h : A -> B) (xs : list A) s :
  Forall (fun x => f x s = (Ok (h x), s)) xs ->
  mapM f xs s = (Ok (h <$> xs), s).
Proof.
  induction 1 as [|x xs Hx _ IH]; simpl; [reflexivity|].
  erewrite bind_ok by exact Hx. erewrite bind_ok by exact IH. reflexivity.
Qed.

Lemma print_cell_eq b row col s :
  shape_ok b -> 0 <= row < nb_rows b -> 0 <= col < nb_cols b ->
  print_cell b row col s = (Ok (char_of b row col), s).
Proof.
  intros Hshape Hrow Hcol. unfold print_cell, char_of.
  destruct (is_drifter b row col); [reflexivity|].
  destruct (shape_row b row Hshape Hrow) as (r & Hr & Hlen).
  erewrite bind_ok by (apply getitem_eq; [lia|exact Hr]).
  erewrite bind_ok by (eapply getitem_slot; [exact Hr|lia]).
  destruct (slot (cells b) row col); reflexivity.
Qed.
End Text.

Lemma char_of_single b row col :
  exists a, char_of b row col = String a EmptyString.
Proof.
  unfold char_of. destruct (is_drifter b row col); [eauto|].
  destruct (slot (cells b) row col); eauto.
Qed.

Lemma concat_singles (l : list string) :
  Forall (fun x => exists a, x = String a EmptyString) l ->
  String.length (String.concat "" l) = length l /\
  forall n x, l !! n = Some x ->
    String.get n (String.concat "" l) = String.get 0 x.
Proof.
  induction 1 as [|x l [a ->] _ [IHlen IHget]].
  - split; [reflexivity|]. intros n x Hx. discriminate.
  - assert (Hc : String.concat "" (String a EmptyString :: l)
                 = String a (String.concat "" l)).
    { destruct l; reflexivity. }
    rewrite Hc. split; [simpl; rewrite IHlen; reflexivity|].
    intros [|n] x Hx; simpl in Hx.
    + injection Hx as <-. reflexivity.
    + simpl. apply IHget. exact Hx.
Qed.

(** The textual snapshot of a board whose grid has the declared shape
    is produced, changes nothing and is the lines of the rows joined by
    newlines; the line of a row has [nb_cols] characters, and the one
    of a column is "." when a drifter is at the position, whether or
    not a cell is settled there, and else "#" for a settled cell and a
    blank for an empty slot. *)
Theorem textual_snapshot (St : Type) (s : St) (b : Board) :
  shape_ok b ->
  exists lines,
    Board_str b s = (Ok (String.concat newline lines), s) /\
    Z.of_nat (length lines) = nb_rows b /\
    forall row, 0 <= row < nb_rows b ->
      exists line,
        lines !! Z.to_nat row = Some line /\
        Z.of_nat (String.length line) = Z.max 0 (nb_cols b) /\
        forall col, 0 <= col < nb_cols b ->
          String.get (Z.to_nat col) line
          = String.get 0 (if is_drifter b row col then "."
                          else match slot (cells b) row col with
                               | Some _ => "#"
                               | None => " "
                               end)%string.
Proof.
  intros Hshape.
  set (line_of := fun row =>
         String.concat "" (char_of b row <$> range (nb_cols b))).
  exists (line_of <$> range (nb_rows b)). split; [|split].
  - unfold Board_str.
    erewrite bind_ok; [reflexivity|].
    apply mapM_pure. eapply Forall_impl; [apply range_bounds|].
    intros row Hrow. simpl.
    erewrite bind_ok; [reflexivity|].
    apply mapM_pure. eapply Forall_impl; [apply range_bounds|].
    intros col Hcol. simpl. apply print_cell_eq; assumption.
  - rewrite length_fmap. unfold range. rewrite length_seqZ.
    destruct Hshape as [Hlen _]. lia.
  - intros row Hrow. exists (line_of row). split.
    + rewrite list_lookup_fmap. unfold range.
      rewrite lookup_seqZ_lt by lia. simpl. f_equal. f_equal. lia.
    + assert (Hs : Forall (fun x => exists a, x = String a EmptyString)
                     (char_of b row <$> range (nb_cols b))).
      { apply Forall_fmap. apply Forall_true. intros col.
        apply char_of_single. }
      destruct (concat_singles _ Hs) as [Hlen Hget]. split.
      * unfold line_of. rewrite Hlen, length_fmap. unfold range.
        rewrite length_seqZ. lia.
      * intros col Hcol. unfold line_of.
        rewrite (Hget (Z.to_nat col) (char_of b row col)); [reflexivity|].
        rewrite list_lookup_fmap. unfold range.
        rewrite lookup_seqZ_lt by lia. simpl. f_equal. f_equal. lia.
Qed.

Lemma textual_snapshot_witness :
  exists txt,
    Board_str
      (mkBoard 2 2 [[None; None]; [Some (mkCoralCell 300 0); None]] 3 false
         [(0, 1); (1, 0)] 2 80 0.475 0.5) tt = (Ok txt, tt) /\
    txt = String.concat newline [" ."; ". "]%string.
Proof.
  destruct (textual_snapshot unit tt
              (mkBoard 2 2 [[None; None]; [Some (mkCoralCell 300 0); None]]
                 3 false [(0, 1); (1, 0)] 2 80 0.475 0.5))
    as (lines & Hrun & _).
  - split; [reflexivity|repeat constructor].
  - exists (String.concat newline lines). split; [exact Hrun|].
    assert (Hc : Board_str
                   (mkBoard 2 2
                      [[None; None]; [Some (mkCoralCell 300 0); None]]
                      3 false [(0, 1); (1, 0)] 2 80 0.475 0.5) tt
                 = (Ok (String.concat newline [" ."; ". "]%string), tt))
      by (vm_compute; reflexivity).
    rewrite Hc in Hrun. injection Hrun as Hrun. symmetry. exact Hrun.
Defined.
